(** * Etcher drive scanner: lib/gui/modules/drive-scanner.js

    A shallow embedding of the [DriveScanner] class and a verification of
    its specification.

    Modelling decisions, all read off the source:

    - Drive descriptors are JS objects.  [processDrives] assigns to their
      [name] property, so descriptors live in a store ([gmap] from
      references to records) and arrays are lists of references.
    - [error] and the value of [settings.get('unsafeMode')] are tested
      with [if (...)], that is by JS truthiness; both are JS values.
    - [scanCount] and [errorCount] are JS numbers, that is doubles, that
      only ever receive [+= 1] from 0.  They hold natural numbers; [+= 1]
      is [Js.add1], exact below 2^53 and rounded from there on.
    - [setTimeout], [clearTimeout], [drivelist.list], [settings.get],
      [debug] and [emit] are calls into the host.  Each one is recorded in
      an effect log; timers and outstanding [drivelist.list] calls are
      host state.  The host later fires a timer or completes a listing,
      which is a labelled step of the world.
    - [emit] is [EventEmitter.prototype.emit]: an ['error'] event with no
      ['error'] listener attached is thrown, which leaves the calling
      callback at once; the world counts the ['error'] listeners, attached
      by [on('error', ...)] and detached by [removeListener].  Otherwise
      the subscribers run synchronously inside [emit]; they may call the
      public [start()] and [stop()], and a completion step carries the calls
      they make.  Subscribers themselves are taken not to throw. *)

From stdpp Require Import gmap strings list fin_maps.
From Stdlib Require Import ZArith NArith.

Local Open Scope string_scope.
Local Open Scope list_scope.

(** ** JS values and truthiness *)

Module Js.

(** The values that can reach an [if (...)] test in this file.  Numbers
    are integer valued; [VObject] is any object, for instance an
    [Error]. *)
Inductive value :=
| VUndefined
| VNull
| VBool (b : bool)
| VNumber (n : Z)
| VString (s : string)
| VObject (descr : string).

Definition truthy (v : value) : bool :=
  match v with
  | VUndefined | VNull => false
  | VBool b => b
  | VNumber n => negb (n =? 0)%Z
  | VString s => negb (String.eqb s "")
  | VObject _ => true
  end.

(** [Array.prototype.join] / [_.join] on an array of strings. *)
Fixpoint join (l : list string) (sep : string) : string :=
  match l with
  | [] => ""
  | [s] => s
  | s :: rest => (s ++ sep ++ join rest sep)%string
  end.

(** The doubles up to [exact_limit] hold every natural number. *)
Definition exact_limit : N := 2 ^ 53.

(** [x + 1] on the double holding the natural number [x], rounded to the
    nearest double, ties to even: exact below 2^53; between 2^53 and 2^54
    the doubles are the even numbers and [x + 1] lies half way, so it goes
    to the neighbour with the even significand; above, it rounds back to
    [x].  In particular 2^53 + 1 is 2^53. *)
Definition add1 (x : N) : N :=
  if (x <? exact_limit)%N then (x + 1)%N
  else if (x <? 2 ^ 54)%N && N.odd (x / 2) then (x + 2)%N
  else x.

End Js.

(** ** Drive descriptors *)

Record Mountpoint := { path : string }.

(** A descriptor as [drivelist] hands it over, plus the [name] property
    that post-processing adds ([None] is JS [undefined]). *)
Record Drive := {
  device : string;
  system : bool;
  mountpoints : option (list Mountpoint);
  name : option string
}.

Definition set_name (n : string) (d : Drive) : Drive :=
  {| device := device d; system := system d;
     mountpoints := mountpoints d; name := Some n |}.

(** References to descriptor objects, and the object store. *)
Abbreviation loc := nat (only parsing).
Abbreviation heap := (gmap nat Drive) (only parsing).

(** [_.isEmpty(drive.mountpoints)]: true on [undefined] and on [[]]. *)
Definition isEmpty (m : option (list Mountpoint)) : bool :=
  match m with
  | None | Some [] => true
  | Some (_ :: _) => false
  end.

(** [_.map(drive.mountpoints, 'path')]; [_.map(undefined, ...)] is [[]]. *)
Definition mountpoint_paths (m : option (list Mountpoint)) : list string :=
  match m with
  | None => []
  | Some l => map path l
  end.

Definition DRIVE_SCANNER_DELAY_MS : Z := 2000.
Definition DRIVE_SCANNER_FIRST_SCAN_DELAY_MS : Z := 125.

(** The body of the arrow function given to [_.map] in [processDrives],
    as a transformer of the object it is handed. *)
Definition process_drive (platform : string) (drive : Drive) : Drive :=
  let drive := set_name (device drive) drive in
  if String.eqb platform "win32" && negb (isEmpty (mountpoints drive))
  then set_name (Js.join (mountpoint_paths (mountpoints drive)) ", ") drive
  else drive.

(** [DriveScanner.processDrives]: [_.map] visits the array left to right,
    the callback mutates the object behind each reference and returns the
    same reference; the result is a new array of those references. *)
Fixpoint processDrives (platform : string) (drives : list loc) (h : heap)
  : heap * list loc :=
  match drives with
  | [] => (h, [])
  | drive :: rest =>
      let h1 := alter (process_drive platform) drive h in
      let '(h2, out) := processDrives platform rest h1 in
      (h2, drive :: out)
  end.

(** The predicate built by [_.reject(list, {system: true})]: the element
    has a [system] property equal to [true]. *)
Definition matches_system_true (h : heap) (l : loc) : bool :=
  match h !! l with
  | Some d => system d
  | None => false
  end.

Definition reject_system (h : heap) (ls : list loc) : list loc :=
  List.filter (fun l => negb (matches_system_true h l)) ls.

(** What a subscriber sees through an array of references. *)
Definition deref (h : heap) (ls : list loc) : list (option Drive) :=
  map (fun l => h !! l) ls.

(** ** The host: effects, timers, outstanding listings *)

Inductive event :=
| EvError (error : Js.value)
| EvDrives (drives : option (list loc)).   (* [None]: [undefined] *)

(** One entry per call that leaves the module. *)
Inductive effect :=
| EDebug (tag : string)
| ESetTimeout (id : nat) (delay : Z)
| EClearTimeout (handle : option nat)
| EDrivelistList
| ESettingsGet (key : string)
| EEmit (ev : event).

(** The public methods a subscriber may call from inside [emit]. *)
Inductive api := ApiStart | ApiStop.

Record World := {
  (* fields of the scanner object *)
  isRunning : bool;
  timer : option nat;
  scanCount : N;
  errorCount : N;
  errorListeners : nat;      (* [listenerCount('error')] *)
  (* the host *)
  os_platform : string;
  pending : gmap nat Z;      (* armed timers, all calling [run], with delay *)
  next_timer : nat;          (* the handle [setTimeout] returns next *)
  inflight : nat;            (* [drivelist.list] calls not yet called back *)
  store : gmap nat Drive;    (* descriptor objects *)
  log : list effect          (* effects so far, oldest first *)
}.

Definition with_isRunning (b : bool) (w : World) : World :=
  {| isRunning := b; timer := timer w; scanCount := scanCount w;
     errorCount := errorCount w; errorListeners := errorListeners w;
     os_platform := os_platform w;
     pending := pending w; next_timer := next_timer w;
     inflight := inflight w; store := store w; log := log w |}.

Definition with_timer (t : option nat) (w : World) : World :=
  {| isRunning := isRunning w; timer := t; scanCount := scanCount w;
     errorCount := errorCount w; errorListeners := errorListeners w;
     os_platform := os_platform w;
     pending := pending w; next_timer := next_timer w;
     inflight := inflight w; store := store w; log := log w |}.

Definition with_scanCount (n : N) (w : World) : World :=
  {| isRunning := isRunning w; timer := timer w; scanCount := n;
     errorCount := errorCount w; errorListeners := errorListeners w;
     os_platform := os_platform w;
     pending := pending w; next_timer := next_timer w;
     inflight := inflight w; store := store w; log := log w |}.

Definition with_errorCount (n : N) (w : World) : World :=
  {| isRunning := isRunning w; timer := timer w; scanCount := scanCount w;
     errorCount := n; errorListeners := errorListeners w;
     os_platform := os_platform w;
     pending := pending w; next_timer := next_timer w;
     inflight := inflight w; store := store w; log := log w |}.

Definition with_errorListeners (n : nat) (w : World) : World :=
  {| isRunning := isRunning w; timer := timer w; scanCount := scanCount w;
     errorCount := errorCount w; errorListeners := n;
     os_platform := os_platform w;
     pending := pending w; next_timer := next_timer w;
     inflight := inflight w; store := store w; log := log w |}.

Definition with_timers (p : gmap nat Z) (next : nat) (w : World) : World :=
  {| isRunning := isRunning w; timer := timer w; scanCount := scanCount w;
     errorCount := errorCount w; errorListeners := errorListeners w;
     os_platform := os_platform w;
     pending := p; next_timer := next;
     inflight := inflight w; store := store w; log := log w |}.

Definition with_inflight (n : nat) (w : World) : World :=
  {| isRunning := isRunning w; timer := timer w; scanCount := scanCount w;
     errorCount := errorCount w; errorListeners := errorListeners w;
     os_platform := os_platform w;
     pending := pending w; next_timer := next_timer w;
     inflight := n; store := store w; log := log w |}.

Definition with_store (h : heap) (w : World) : World :=
  {| isRunning := isRunning w; timer := timer w; scanCount := scanCount w;
     errorCount := errorCount w; errorListeners := errorListeners w;
     os_platform := os_platform w;
     pending := pending w; next_timer := next_timer w;
     inflight := inflight w; store := h; log := log w |}.

Definition with_log (l : list effect) (w : World) : World :=
  {| isRunning := isRunning w; timer := timer w; scanCount := scanCount w;
     errorCount := errorCount w; errorListeners := errorListeners w;
     os_platform := os_platform w;
     pending := pending w; next_timer := next_timer w;
     inflight := inflight w; store := store w; log := l |}.

(** *** A state monad over the world *)

Definition M (A : Type) : Type := World -> A * World.

#[global] Instance M_ret : MRet M := fun A (a : A) w => (a, w).
#[global] Instance M_bind : MBind M :=
  fun A B (k : A -> M B) (m : M A) w => let '(a, w1) := m w in k a w1.

Definition get {A} (f : World -> A) : M A := fun w => (f w, w).
Definition modify (f : World -> World) : M unit := fun w => (tt, f w).
Definition when (b : bool) (m : M unit) : M unit :=
  if b then m else mret tt.
Definition exec {A} (m : M A) (w : World) : World := (m w).2.

Definition tell (e : effect) : M unit :=
  modify (fun w => with_log (log w ++ [e]) w).

(** *** Host calls *)

Definition debug (tag : string) : M unit := tell (EDebug tag).

(** [setTimeout(this.run, delay)]: a handle never handed out before. *)
Definition setTimeout (delay : Z) : M nat :=
  id ← get next_timer;
  modify (fun w => with_timers (<[id := delay]> (pending w)) (S id) w);;
  tell (ESetTimeout id delay);;
  mret id.

(** [clearTimeout(handle)]: nothing happens on [null] or on a handle
    whose timer has fired or was cleared. *)
Definition clearTimeout (handle : option nat) : M unit :=
  match handle with
  | Some id =>
      modify (fun w => with_timers (delete id (pending w)) (next_timer w) w)
  | None => mret tt
  end;;
  tell (EClearTimeout handle).

(** [settings.get(key)]; the store answers [answer]. *)
Definition settings_get (key : string) (answer : Js.value) : M Js.value :=
  tell (ESettingsGet key);;
  mret answer.

(** [drivelist.list(callback)]: the call is outstanding until the host
    calls back. *)
Definition drivelist_list : M unit :=
  tell EDrivelistList;;
  modify (fun w => with_inflight (S (inflight w)) w).

(** ** The scanner *)

(** [new DriveScanner()] on a host whose [os.platform()] is [platform]. *)
Definition new_scanner (platform : string) : World :=
  {| isRunning := false; timer := None; scanCount := 0; errorCount := 0;
     errorListeners := 0; os_platform := platform; pending := ∅; next_timer := 0;
     inflight := 0; store := ∅; log := [] |}.

Definition start : M unit :=
  debug "start";;
  modify (with_isRunning true);;
  t ← setTimeout DRIVE_SCANNER_FIRST_SCAN_DELAY_MS;
  modify (with_timer (Some t)).

Definition stop : M unit :=
  debug "stop";;
  modify (with_isRunning false);;
  t ← get timer;
  clearTimeout t.

Definition call (a : api) : M unit :=
  match a with
  | ApiStart => start
  | ApiStop => stop
  end.

(** The subscribers of one emission, reduced to the calls they make. *)
Fixpoint listeners (react : list api) : M unit :=
  match react with
  | [] => mret tt
  | a :: rest => call a;; listeners rest
  end.

Definition is_error_event (ev : event) : bool :=
  match ev with EvError _ => true | EvDrives _ => false end.

(** [this.emit(name, payload)].  An ['error'] event with no ['error']
    listener attached is thrown; otherwise the subscribers run.  The
    result tells whether [emit] threw. *)
Definition emit (ev : event) (react : list api) : M bool :=
  tell (EEmit ev);;
  n ← get errorListeners;
  if is_error_event ev && Nat.eqb n 0 then mret true
  else listeners react;; mret false.

(** [DriveScanner.scan(callback)] up to the asynchronous call. *)
Definition scan : M unit := drivelist_list.

(** The arrow function [scan] gives to [drivelist.list], lines 143-160.
    The result is the argument pair it passes to [callback]; [None] is
    an argument left out. *)
Definition scan_on_list (error : Js.value) (drives : list loc)
    (unsafeMode : Js.value) : M (Js.value * option (list loc)) :=
  if Js.truthy error then mret (error, None)
  else
    platform ← get os_platform;
    h ← get store;
    let '(h1, ls) := processDrives platform drives h in
    modify (with_store h1);;
    unsafe ← settings_get "unsafeMode" unsafeMode;
    h2 ← get store;
    let ls := if negb (Js.truthy unsafe) then reject_system h2 ls else ls in
    mret (Js.VNull, Some ls).

(** The arrow function [run] gives to [DriveScanner.scan], lines 82-93. *)
Definition run_on_scan (error : Js.value) (drives : option (list loc))
    (react : list api) : M unit :=
  debug "scan";;
  threw ← (if Js.truthy error then
             modify (fun w => with_errorCount (Js.add1 (errorCount w)) w);;
             emit (EvError error) react
           else
             emit (EvDrives drives) react);
  if threw : bool then mret tt    (* the exception leaves the callback *)
  else
    running ← get isRunning;
    when running
      (t ← setTimeout DRIVE_SCANNER_DELAY_MS;
       modify (with_timer (Some t))).

(** [run()], lines 75-95, up to the asynchronous call. *)
Definition run : M unit :=
  running ← get isRunning;
  if negb running then mret tt
  else
    modify (fun w => with_scanCount (Js.add1 (scanCount w)) w);;
    scan.

(** The host calls back an outstanding [drivelist.list]: both arrow
    functions run to the end. *)
Definition complete (error : Js.value) (drives : list loc)
    (unsafeMode : Js.value) (react : list api) : M unit :=
  args ← scan_on_list error drives unsafeMode;
  run_on_scan args.1 args.2 react.

(** ** Steps of the world *)

(** The array [drivelist] builds for one listing: fresh objects. *)
Fixpoint alloc_drives (raw : list Drive) (h : heap) : heap * list loc :=
  match raw with
  | [] => (h, [])
  | d :: rest =>
      let l := fresh (dom h) in
      let '(h1, ls) := alloc_drives rest (<[l := d]> h) in
      (h1, l :: ls)
  end.

Inductive label :=
| LStart
| LStop
| LFire (id : nat)
| LComplete (error : Js.value) (raw : list Drive) (unsafeMode : Js.value)
    (react : list api)
| LOnError      (* the application calls [on('error', listener)] *)
| LOffError.    (* the application calls [removeListener('error', listener)] *)

Definition step (l : label) (w : World) : option World :=
  match l with
  | LStart => Some (exec start w)
  | LStop => Some (exec stop w)
  | LFire id =>
      match pending w !! id with
      | Some _ =>
          Some (exec run
                  (with_timers (delete id (pending w)) (next_timer w) w))
      | None => None
      end
  | LComplete error raw unsafeMode react =>
      match inflight w with
      | S n =>
          let '(h, drives) := alloc_drives raw (store w) in
          Some (exec (complete error drives unsafeMode react)
                  (with_store h (with_inflight n w)))
      | O => None
      end
  | LOnError => Some (with_errorListeners (S (errorListeners w)) w)
  | LOffError => Some (with_errorListeners (pred (errorListeners w)) w)
  end.

Fixpoint steps (tr : list label) (w : World) : option World :=
  match tr with
  | [] => Some w
  | l :: rest =>
      match step l w with
      | Some w1 => steps rest w1
      | None => None
      end
  end.

(** The effects added between two worlds, and the events among them. *)
Definition effects_since (w w' : World) : list effect :=
  drop (length (log w)) (log w').

Definition emitted (es : list effect) : list event :=
  omap (fun e => match e with EEmit ev => Some ev | _ => None end) es.

Definition is_scan (e : effect) : bool :=
  match e with EDrivelistList => true | _ => false end.

Definition scans (es : list effect) : nat := length (List.filter is_scan es).

(** ** Vocabulary of the statements *)

(** The name the callback of [processDrives] leaves on a descriptor. *)
Definition display_name (platform : string) (d : Drive) : string :=
  if String.eqb platform "win32" && negb (isEmpty (mountpoints d))
  then Js.join (mountpoint_paths (mountpoints d)) ", "
  else device d.

(** Effects of [start] and [stop]: logging and timers only. *)
Definition timer_effect (e : effect) : bool :=
  match e with
  | EDebug _ | ESetTimeout _ _ | EClearTimeout _ => true
  | _ => false
  end.

(** Effects of [stop]. *)
Definition stop_effect (e : effect) : bool :=
  match e with
  | EDebug _ | EClearTimeout _ => true
  | _ => false
  end.

Definition is_arm (e : effect) : bool :=
  match e with ESetTimeout _ _ => true | _ => false end.

Definition arms (es : list effect) : nat := length (List.filter is_arm es).

(** What calls of the public methods leave alone. *)
Record api_frame (w w' : World) : Prop := {
  af_scanCount : scanCount w' = scanCount w;
  af_errorCount : errorCount w' = errorCount w;
  af_inflight : inflight w' = inflight w;
  af_store : store w' = store w;
  af_platform : os_platform w' = os_platform w;
  af_next : next_timer w <= next_timer w';
  af_log : exists es, log w' = log w ++ es /\ forallb timer_effect es = true
}.

(** The re-arming at the end of [run]'s callback, lines 90-92. *)
Definition rearm (w : World) : World :=
  {| isRunning := isRunning w; timer := Some (next_timer w);
     scanCount := scanCount w; errorCount := errorCount w;
     errorListeners := errorListeners w;
     os_platform := os_platform w;
     pending := <[next_timer w := DRIVE_SCANNER_DELAY_MS]> (pending w);
     next_timer := S (next_timer w);
     inflight := inflight w; store := store w;
     log := log w ++ [ESetTimeout (next_timer w) DRIVE_SCANNER_DELAY_MS] |}.

(** The world when [run]'s callback has emitted, before subscribers run. *)
Definition emitted_world (error : Js.value) (drives : option (list loc))
    (w : World) : World :=
  {| isRunning := isRunning w; timer := timer w;
     scanCount := scanCount w;
     errorCount := if Js.truthy error then Js.add1 (errorCount w)
                   else errorCount w;
     errorListeners := errorListeners w;
     os_platform := os_platform w; pending := pending w;
     next_timer := next_timer w; inflight := inflight w; store := store w;
     log := (log w ++ [EDebug "scan"])
              ++ [EEmit (if Js.truthy error then EvError error
                         else EvDrives drives)] |}.

(** [+= 1], [k] times. *)
Fixpoint add_n (k : nat) (x : N) : N :=
  match k with
  | O => x
  | S k => Js.add1 (add_n k x)
  end.

(** [emit] throws: an error is emitted and nobody listens for errors. *)
Definition emit_throws (error : Js.value) (w : World) : bool :=
  Js.truthy error && Nat.eqb (errorListeners w) 0.

(** The list [scan] passes to [callback] on the success path. *)
Definition scan_output (w : World) (drives : list loc)
    (unsafeMode : Js.value) : list loc :=
  if Js.truthy unsafeMode then drives
  else reject_system (processDrives (os_platform w) drives (store w)).1 drives.

Definition is_start (a : api) : bool :=
  match a with ApiStart => true | ApiStop => false end.

(** The step contains a call of [start()], by the application or by a
    subscriber. *)
Definition calls_start (l : label) : bool :=
  match l with
  | LStart => true
  | LComplete _ _ _ react => existsb is_start react
  | _ => false
  end.

(** At most one timer or outstanding listing, and a pending timer is the
    one the running scanner holds in [this.timer]. *)
Definition single_timer (w : World) : Prop :=
  size (pending w) + inflight w <= 1 /\
  forall id, is_Some (pending w !! id) ->
             timer w = Some id /\ isRunning w = true.

(** [start()] is called only on a stopped scanner with no listing
    outstanding, and no subscriber calls it from inside [emit]. *)
Definition disciplined (l : label) (w : World) : bool :=
  match l with
  | LStart => negb (isRunning w) && Nat.eqb (inflight w) 0
  | LComplete _ _ _ react => negb (existsb is_start react)
  | _ => true
  end.

Fixpoint disciplined_run (tr : list label) (w : World) : bool :=
  match tr with
  | [] => true
  | l :: rest =>
      disciplined l w &&
      match step l w with
      | Some w1 => disciplined_run rest w1
      | None => true
      end
  end.

(** *** Example data *)

Definition sda : Drive :=
  {| device := "/dev/sda"; system := true; mountpoints := None; name := None |}.
Definition sdb : Drive :=
  {| device := "/dev/sdb"; system := false; mountpoints := None; name := None |}.

(** Two descriptors in the store, the first one flagged. *)
Definition two_drives : gmap nat Drive := <[1 := sdb]> (<[0 := sda]> ∅).

(** A Windows disk with two volumes. *)
Definition windows_disk : Drive :=
  {| device := "\\.\PHYSICALDRIVE1"; system := false;
     mountpoints := Some [ {| path := "D:\" |}; {| path := "E:\" |} ];
     name := None |}.

(** A world with one listing outstanding: [start()], then the first timer
    fired. *)
Definition scanning : World :=
  {| isRunning := true; timer := Some 0; scanCount := 1; errorCount := 0;
     errorListeners := 0; os_platform := "linux"; pending := ∅; next_timer := 1;
     inflight := 1; store := ∅;
     log := [EDebug "start";
             ESetTimeout 0 DRIVE_SCANNER_FIRST_SCAN_DELAY_MS;
             EDrivelistList] |}.

(** *** Worlds reached from construction, and what they keep *)

Definition reachable (w : World) : Prop :=
  exists platform tr, steps tr (new_scanner platform) = Some w.

(** Every pending timer carries a handle [setTimeout] has handed out. *)
Definition timers_fresh (w : World) : Prop :=
  forall id, is_Some (pending w !! id) -> id < next_timer w.

(** On a stopped scanner the handle in [this.timer] is not pending. *)
Definition stopped_clear (w : World) : Prop :=
  isRunning w = false ->
  forall id, timer w = Some id -> pending w !! id = None.

(** The [error] events among some effects. *)
Definition errors (es : list effect) : nat :=
  length (List.filter is_error_event (emitted es)).




(** A descriptor with the name post-processing gives it. *)
Definition named (platform : string) (d : Drive) : Drive :=
  set_name (display_name platform d) d.

(** The descriptors a [drives] event delivers for a raw listing. *)
Definition delivered (platform : string) (unsafeMode : Js.value)
    (raw : list Drive) : list Drive :=
  map (named platform)
    (if Js.truthy unsafeMode then raw
     else List.filter (fun d => negb (system d)) raw).

(** ** Post-processing: what [processDrives] does to the store *)

Section PostProcessing.

Variable platform : string.

Lemma process_drive_eq d :
  process_drive platform d = set_name (display_name platform d) d.
Proof.
  unfold process_drive, display_name; simpl.
  destruct (String.eqb platform "win32" && negb (isEmpty (mountpoints d)));
    reflexivity.
Qed.

Lemma process_drive_idem d :
  process_drive platform (process_drive platform d) = process_drive platform d.
Proof. rewrite !process_drive_eq. reflexivity. Qed.

Lemma processDrives_out drives h :
  (processDrives platform drives h).2 = drives.
Proof.
  revert h; induction drives as [|l rest IH]; intros h; simpl; [done|].
  specialize (IH (alter (process_drive platform) l h)).
  destruct (processDrives platform rest _) as [h2 out]; simpl in *.
  by rewrite IH.
Qed.

Lemma processDrives_lookup drives h l :
  (processDrives platform drives h).1 !! l =
  if decide (l ∈ drives) then process_drive platform <$> h !! l else h !! l.
Proof.
  revert h; induction drives as [|l0 rest IH]; intros h;
    cbn [processDrives fst].
  - by rewrite decide_False by set_solver.
  - specialize (IH (alter (process_drive platform) l0 h)).
    destruct (processDrives platform rest _) as [h2 out]; cbn [fst] in *.
    rewrite IH, lookup_alter. clear IH.
    destruct (decide (l0 = l)) as [->|Hne].
    + rewrite (decide_True (P := l ∈ l :: rest)) by set_solver.
      case_decide; [|done].
      destruct (h !! l) as [d|]; simpl; [|done].
      by rewrite process_drive_idem.
    + destruct (decide (l ∈ rest)).
      * by rewrite decide_True by (apply elem_of_cons; by right).
      * by rewrite decide_False by (apply not_elem_of_cons; by split).
Qed.

Lemma processDrives_system drives h l :
  matches_system_true (processDrives platform drives h).1 l =
  matches_system_true h l.
Proof.
  unfold matches_system_true. rewrite processDrives_lookup.
  case_decide; [|done].
  destruct (h !! l) as [d|]; simpl; [|done].
  by rewrite process_drive_eq.
Qed.

End PostProcessing.

(** ** The scanner's methods as world transformers *)

Lemma exec_bind {A B} (m : M A) (k : A -> M B) w :
  exec (m ≫= k) w = exec (k (m w).1) (m w).2.
Proof. unfold exec, mbind, M_bind. by destruct (m w). Qed.

Lemma start_exec w :
  exec start w =
  {| isRunning := true; timer := Some (next_timer w);
     scanCount := scanCount w; errorCount := errorCount w;
     errorListeners := errorListeners w;
     os_platform := os_platform w;
     pending := <[next_timer w := DRIVE_SCANNER_FIRST_SCAN_DELAY_MS]> (pending w);
     next_timer := S (next_timer w);
     inflight := inflight w; store := store w;
     log := (log w ++ [EDebug "start"])
              ++ [ESetTimeout (next_timer w) DRIVE_SCANNER_FIRST_SCAN_DELAY_MS] |}.
Proof. reflexivity. Qed.

Lemma stop_exec w :
  exec stop w =
  {| isRunning := false; timer := timer w;
     scanCount := scanCount w; errorCount := errorCount w;
     errorListeners := errorListeners w;
     os_platform := os_platform w;
     pending := match timer w with
                | Some id => delete id (pending w)
                | None => pending w
                end;
     next_timer := next_timer w;
     inflight := inflight w; store := store w;
     log := (log w ++ [EDebug "stop"]) ++ [EClearTimeout (timer w)] |}.
Proof. destruct w as [r [t|] sc ec el pl pe nt inf st lg]; reflexivity. Qed.

Lemma run_exec w :
  exec run w =
  if isRunning w then
    {| isRunning := true; timer := timer w;
       scanCount := Js.add1 (scanCount w); errorCount := errorCount w;
       errorListeners := errorListeners w;
       os_platform := os_platform w; pending := pending w;
       next_timer := next_timer w; inflight := S (inflight w);
       store := store w; log := log w ++ [EDrivelistList] |}
  else w.
Proof. destruct w as [[|] t sc ec el pl pe nt inf st lg]; reflexivity. Qed.

Lemma listeners_cons a rest w :
  exec (listeners (a :: rest)) w = exec (listeners rest) (exec (call a) w).
Proof. cbn [listeners]. by rewrite exec_bind. Qed.

Lemma api_frame_refl w : api_frame w w.
Proof.
  split; try done. exists []. by rewrite app_nil_r.
Qed.

Lemma api_frame_trans w1 w2 w3 :
  api_frame w1 w2 -> api_frame w2 w3 -> api_frame w1 w3.
Proof.
  intros [a1 a2 a3 a4 a5 a6 (es1 & e1 & f1)] [b1 b2 b3 b4 b5 b6 (es2 & e2 & f2)].
  split; try congruence; [lia|].
  exists (es1 ++ es2). rewrite e2, e1, app_assoc. split; [done|].
  rewrite forallb_app, f1, f2. done.
Qed.

Lemma call_frame a w : api_frame w (exec (call a) w).
Proof.
  destruct a; cbn [call].
  - rewrite start_exec. split; cbn; try done; [lia|].
    eexists [_; _]. by rewrite <- app_assoc.
  - rewrite stop_exec. split; cbn; try done.
    eexists [_; _]. by rewrite <- app_assoc.
Qed.

Lemma listeners_frame react w : api_frame w (exec (listeners react) w).
Proof.
  revert w; induction react as [|a rest IH]; intros w.
  - apply api_frame_refl.
  - rewrite listeners_cons.
    eapply api_frame_trans; [apply call_frame | apply IH].
Qed.

Lemma emit_exec ev react w :
  emit ev react w =
  if is_error_event ev && Nat.eqb (errorListeners w) 0
  then (true, with_log (log w ++ [EEmit ev]) w)
  else (false, exec (listeners react) (with_log (log w ++ [EEmit ev]) w)).
Proof.
  unfold emit, exec.
  cbv beta iota zeta delta [mbind M_bind tell modify get].
  cbn [errorListeners with_log].
  destruct (is_error_event ev && Nat.eqb (errorListeners w) 0); [done|].
  cbv beta iota zeta delta [mbind M_bind mret M_ret].
  by destruct (listeners react _) as [[] w3].
Qed.

Lemma run_on_scan_exec error drives react w :
  exec (run_on_scan error drives react) w =
  if emit_throws error w then emitted_world error drives w
  else
    let w3 := exec (listeners react) (emitted_world error drives w) in
    if isRunning w3 then rearm w3 else w3.
Proof.
  unfold run_on_scan, emit_throws.
  cbv beta iota zeta delta [mbind M_bind debug tell modify].
  destruct (Js.truthy error) eqn:He;
    unfold exec at 1; rewrite emit_exec;
    cbn [is_error_event andb errorListeners with_log with_errorCount].
  - destruct (Nat.eqb (errorListeners w) 0).
    + unfold emitted_world. rewrite He. reflexivity.
    + match goal with |- context [exec (listeners react) ?x] =>
        assert (x = emitted_world error drives w) as ->
          by (unfold emitted_world; rewrite He; reflexivity)
      end.
      cbv beta iota zeta delta [get mbind M_bind].
      destruct (isRunning (exec (listeners react) _)); reflexivity.
  - match goal with |- context [exec (listeners react) ?x] =>
      assert (x = emitted_world error drives w) as ->
        by (unfold emitted_world; rewrite He; reflexivity)
    end.
    cbv beta iota zeta delta [get mbind M_bind].
    destruct (isRunning (exec (listeners react) _)); reflexivity.
Qed.

Lemma complete_exec error drives unsafeMode react w :
  exec (complete error drives unsafeMode react) w =
  if Js.truthy error then exec (run_on_scan error None react) w
  else
    let h1 := (processDrives (os_platform w) drives (store w)).1 in
    let ls := if Js.truthy unsafeMode then drives
              else reject_system h1 drives in
    exec (run_on_scan Js.VNull (Some ls) react)
      (with_log (log w ++ [ESettingsGet "unsafeMode"]) (with_store h1 w)).
Proof.
  unfold complete, scan_on_list. rewrite exec_bind.
  destruct (Js.truthy error); [reflexivity|].
  cbv beta iota delta [mbind M_bind get].
  pose proof (processDrives_out (os_platform w) drives (store w)) as Hout.
  destruct (processDrives (os_platform w) drives (store w)) as [h1 ls].
  cbn [snd] in Hout; subst ls.
  cbv beta iota zeta delta [mbind M_bind modify settings_get tell mret M_ret].
  destruct (Js.truthy unsafeMode); reflexivity.
Qed.

(** ** Counting in doubles *)

Lemma add1_exact x : (x < Js.exact_limit)%N -> Js.add1 x = (x + 1)%N.
Proof. intros Hx%N.ltb_lt. unfold Js.add1. by rewrite Hx. Qed.

Lemma add1_le x : (x <= Js.add1 x)%N.
Proof.
  unfold Js.add1. destruct (x <? Js.exact_limit)%N; [lia|].
  destruct ((x <? 2 ^ 54)%N && N.odd (x / 2)); lia.
Qed.

Lemma add1_limit : Js.add1 Js.exact_limit = Js.exact_limit.
Proof. vm_compute. reflexivity. Qed.

Lemma add1_below x :
  (Js.add1 x < Js.exact_limit)%N ->
  (x < Js.exact_limit)%N /\ Js.add1 x = (x + 1)%N.
Proof.
  intros Hlt. pose proof (add1_le x).
  assert (x < Js.exact_limit)%N by lia. split; [done|by apply add1_exact].
Qed.

Lemma add_n_le k x : (x <= add_n k x)%N.
Proof.
  induction k as [|k IH]; cbn [add_n]; [lia|].
  pose proof (add1_le (add_n k x)). lia.
Qed.

Lemma add_n_below k x :
  (add_n k x < Js.exact_limit)%N -> add_n k x = (x + N.of_nat k)%N.
Proof.
  induction k as [|k IH]; cbn [add_n]; [lia|].
  intros [Hlt ->]%add1_below. rewrite IH by done. lia.
Qed.

Lemma add_n_add a b x : add_n (a + b) x = add_n b (add_n a x).
Proof.
  induction b as [|b IH]; [by rewrite Nat.add_0_r|].
  rewrite Nat.add_succ_r. cbn [add_n]. by rewrite IH.
Qed.

Lemma add_n_from_0 k : add_n k 0 = N.min Js.exact_limit (N.of_nat k).
Proof.
  induction k as [|k IH]; cbn [add_n]; [reflexivity|].
  rewrite IH.
  destruct (N.lt_ge_cases (N.of_nat k) Js.exact_limit) as [Hlt|Hge].
  - rewrite N.min_r by lia. rewrite add1_exact by done. lia.
  - rewrite N.min_l by lia. rewrite add1_limit. lia.
Qed.

(** ** Effects of one completion *)

Lemma effects_since_app w w' es :
  log w' = log w ++ es -> effects_since w w' = es.
Proof. unfold effects_since. intros ->. by rewrite drop_app_length. Qed.

Lemma emitted_timer_effects es :
  forallb timer_effect es = true -> emitted es = [].
Proof.
  induction es as [|e es IH]; [done|].
  cbn [forallb]. intros [He Hes]%andb_prop.
  destruct e; try discriminate He; cbn; auto.
Qed.

Lemma scans_timer_effects es :
  forallb timer_effect es = true -> scans es = 0.
Proof.
  unfold scans. induction es as [|e es IH]; [done|].
  cbn [forallb]. intros [He Hes]%andb_prop.
  destruct e; try discriminate He; cbn; auto.
Qed.

Lemma not_elem_of_timer_effects e es :
  forallb timer_effect es = true -> timer_effect e = false -> e ∉ es.
Proof.
  intros Hall He Hin.
  apply list_elem_of_In in Hin.
  rewrite forallb_forall in Hall. apply Hall in Hin. congruence.
Qed.

Lemma rearm_frame w : api_frame w (rearm w).
Proof.
  split; cbn; try done; [lia|]. by eexists [_].
Qed.

Lemma run_on_scan_frame error drives react w :
  api_frame (emitted_world error drives w)
    (exec (run_on_scan error drives react) w).
Proof.
  rewrite run_on_scan_exec. cbn zeta.
  destruct (emit_throws error w); [apply api_frame_refl|].
  pose proof (listeners_frame react (emitted_world error drives w)) as Hf.
  destruct (isRunning _); [|done].
  eapply api_frame_trans; [exact Hf | apply rearm_frame].
Qed.

Lemma complete_log error drives unsafeMode react w :
  exists es_api,
    forallb timer_effect es_api = true /\
    log (exec (complete error drives unsafeMode react) w) =
    log w ++
      (if Js.truthy error then [] else [ESettingsGet "unsafeMode"]) ++
      [EDebug "scan";
       EEmit (if Js.truthy error then EvError error
              else EvDrives (Some (scan_output w drives unsafeMode)))] ++
      es_api.
Proof.
  rewrite complete_exec. unfold scan_output.
  destruct (Js.truthy error) eqn:He; cbn zeta.
  - destruct (run_on_scan_frame error None react w) as [_ _ _ _ _ _ (es & Hl & Hes)].
    exists es. split; [done|]. rewrite Hl. cbn. rewrite He.
    by rewrite <- !app_assoc.
  - match goal with |- context [exec ?m ?w0] =>
      destruct (run_on_scan_frame Js.VNull
                  (Some (if Js.truthy unsafeMode then drives
                         else reject_system
                                (processDrives (os_platform w) drives (store w)).1
                                drives)) react w0)
        as [_ _ _ _ _ _ (es & Hl & Hes)]
    end.
    exists es. split; [done|]. rewrite Hl. cbn.
    by rewrite <- !app_assoc.
Qed.

Lemma complete_fields error drives unsafeMode react w :
  let w' := exec (complete error drives unsafeMode react) w in
  scanCount w' = scanCount w /\
  errorCount w' = (if Js.truthy error then Js.add1 (errorCount w)
                   else errorCount w) /\
  inflight w' = inflight w /\
  os_platform w' = os_platform w /\
  next_timer w <= next_timer w' /\
  store w' = if Js.truthy error then store w
             else (processDrives (os_platform w) drives (store w)).1.
Proof.
  cbn zeta. rewrite complete_exec.
  destruct (Js.truthy error) eqn:He; cbn zeta.
  - destruct (run_on_scan_frame error None react w) as [a1 a2 a3 a4 a5 a6 _].
    cbn in *. rewrite He in a2. by repeat split.
  - match goal with |- context [exec (run_on_scan ?e ?d _) ?w0] =>
      destruct (run_on_scan_frame e d react w0) as [a1 a2 a3 a4 a5 a6 _]
    end.
    cbn in *. by repeat split.
Qed.

(** ** Completion steps *)

Lemma step_complete error raw unsafeMode react w n :
  inflight w = S n ->
  step (LComplete error raw unsafeMode react) w =
  Some (exec (complete error (alloc_drives raw (store w)).2 unsafeMode react)
          (with_store (alloc_drives raw (store w)).1 (with_inflight n w))).
Proof.
  intros Hn. cbn [step]. rewrite Hn.
  by destruct (alloc_drives raw (store w)).
Qed.

Lemma emitted_app es1 es2 : emitted (es1 ++ es2) = emitted es1 ++ emitted es2.
Proof. apply omap_app. Qed.

(** C3, as the code has it: a completion with an error emits no [drives]
    event and exactly one [error] event with that error, and adds one to
    the error counter as long as it is below 2^53.  If an ['error']
    listener is attached and the scanner is running when the callback
    ends, the callback leaves a fresh timer of [DRIVE_SCANNER_DELAY_MS]
    armed as the last thing it does; with no ['error'] listener [emit]
    throws and the callback arms nothing. *)
Theorem error_completion w error raw unsafeMode react :
  Js.truthy error = true ->
  0 < inflight w ->
  exists w',
    step (LComplete error raw unsafeMode react) w = Some w' /\
    let es := effects_since w w' in
    (forall drives, EvDrives drives ∉ emitted es) /\
    emitted es = [EvError error] /\
    errorCount w' = Js.add1 (errorCount w) /\
    ((errorCount w < Js.exact_limit)%N ->
     errorCount w' = (errorCount w + 1)%N) /\
    (0 < errorListeners w ->
     isRunning w' = true ->
     exists id,
       next_timer w <= id /\
       timer w' = Some id /\
       pending w' !! id = Some DRIVE_SCANNER_DELAY_MS /\
       last es = Some (ESetTimeout id DRIVE_SCANNER_DELAY_MS)) /\
    (errorListeners w = 0 ->
     isRunning w' = isRunning w /\ timer w' = timer w /\
     pending w' = pending w /\
     es = [EDebug "scan"; EEmit (EvError error)]).
Proof.
  intros He Hin.
  destruct (inflight w) as [|n] eqn:Hn; [lia|].
  eexists. split; [by apply step_complete|].
  set (drives := (alloc_drives raw (store w)).2).
  set (w0 := with_store _ _).
  assert (Hem : emitted (effects_since w
                  (exec (complete error drives unsafeMode react) w0))
                = [EvError error]).
  { destruct (complete_log error drives unsafeMode react w0)
      as (es & Hes & Hl).
    rewrite He in Hl.
    erewrite effects_since_app by exact Hl.
    by rewrite !emitted_app, (emitted_timer_effects es). }
  assert (Hec : errorCount (exec (complete error drives unsafeMode react) w0)
                = Js.add1 (errorCount w)).
  { pose proof (complete_fields error drives unsafeMode react w0) as Hf.
    cbn zeta in Hf. rewrite He in Hf. apply Hf. }
  assert (Hlog0 : log (emitted_world error None w0)
                  = log w ++ [EDebug "scan"; EEmit (EvError error)]).
  { cbn [emitted_world log]. rewrite He. subst w0.
    cbn [with_store with_inflight log]. by rewrite <- app_assoc. }
  cbn zeta. split; [|split; [|split; [|split; [|split]]]].
  - rewrite Hem. intros ds [Hd|Hd]%elem_of_cons; [discriminate|].
    by apply not_elem_of_nil in Hd.
  - exact Hem.
  - exact Hec.
  - intros Hlt. rewrite Hec. by apply add1_exact.
  - intros Hls. rewrite complete_exec, He, run_on_scan_exec.
    unfold emit_throws. rewrite He.
    change (errorListeners w0) with (errorListeners w).
    destruct (errorListeners w) as [|k]; [lia|]. cbn [Nat.eqb andb]. cbn zeta.
    pose proof (listeners_frame react (emitted_world error None w0)) as Hf.
    destruct (isRunning (exec (listeners react) _)) eqn:Hr;
      [intros _|by rewrite Hr].
    eexists. split; [|split; [reflexivity|split]].
    + apply (af_next _ _ Hf).
    + cbn [rearm pending]. apply lookup_insert_eq.
    + destruct (af_log _ _ Hf) as (es & Hl & _).
      unfold effects_since. cbn [rearm log]. rewrite Hl, Hlog0.
      rewrite <- !app_assoc, drop_app_length.
      by rewrite !app_assoc, last_snoc.
  - intros Hls. rewrite complete_exec, He, run_on_scan_exec.
    unfold emit_throws. rewrite He.
    change (errorListeners w0) with (errorListeners w). rewrite Hls.
    cbn [Nat.eqb andb].
    split; [reflexivity|]. split; [reflexivity|]. split; [reflexivity|].
    unfold effects_since. rewrite Hlog0. by rewrite drop_app_length.
Qed.

(** C3 as stated fails: a scanner that was started with no ['error']
    listener attached and whose first listing fails stays running, but
    [emit] throws before the re-arming: no timer is pending, none was
    armed, and no listing is outstanding. *)
Lemma error_without_listener_stalls :
  steps [LStart; LFire 0] (new_scanner "linux") = Some scanning /\
  Js.truthy (Js.VObject "Error: EACCES") = true /\
  exists w',
    step (LComplete (Js.VObject "Error: EACCES") [] Js.VUndefined []) scanning
      = Some w' /\
    emitted (effects_since scanning w') = [EvError (Js.VObject "Error: EACCES")] /\
    isRunning w' = true /\
    pending w' = ∅ /\
    inflight w' = 0 /\
    arms (effects_since scanning w') = 0.
Proof.
  split; [vm_compute; reflexivity|]. split; [reflexivity|].
  eexists. split; [vm_compute; reflexivity|].
  split; [reflexivity|]. split; [reflexivity|]. split; [reflexivity|].
  split; reflexivity.
Qed.

(** C10: every completion emits exactly one event, [error] when the error
    argument is truthy and [drives] otherwise; on the error path the
    settings store is not read and the descriptors stay as the host
    allocated them. *)
Theorem one_event_per_completion w error raw unsafeMode react :
  0 < inflight w ->
  exists w',
    step (LComplete error raw unsafeMode react) w = Some w' /\
    let es := effects_since w w' in
    (exists payload,
       emitted es = [if Js.truthy error then EvError error
                     else EvDrives (Some payload)]) /\
    (Js.truthy error = true ->
     (forall key, ESettingsGet key ∉ es) /\
     store w' = (alloc_drives raw (store w)).1).
Proof.
  intros Hin.
  destruct (inflight w) as [|n] eqn:Hn; [lia|].
  eexists. split; [by apply step_complete|].
  set (drives := (alloc_drives raw (store w)).2).
  set (w0 := with_store _ _).
  destruct (complete_log error drives unsafeMode react w0) as (es & Hes & Hl).
  change (log w0) with (log w) in Hl.
  cbn zeta. rewrite (effects_since_app _ _ _ Hl). split.
  - exists (scan_output w0 drives unsafeMode).
    rewrite !emitted_app, (emitted_timer_effects es) by done.
    by destruct (Js.truthy error).
  - intros He. rewrite He in *. split.
    + intros key Hk. cbn [app] in Hk.
      apply elem_of_cons in Hk as [Hk|Hk]; [discriminate|].
      apply elem_of_cons in Hk as [Hk|Hk]; [discriminate|].
      by apply (not_elem_of_timer_effects (ESettingsGet key) es).
    + pose proof (complete_fields error drives unsafeMode react w0) as Hf.
      cbn zeta in Hf. rewrite He in Hf.
      destruct Hf as (_ & _ & _ & _ & _ & ->). reflexivity.
Qed.

Example scanning_reached :
  steps [LStart; LFire 0] (new_scanner "linux") = Some scanning.
Proof. vm_compute. reflexivity. Qed.

Lemma error_completion_witness :
  Js.truthy (Js.VObject "Error: EACCES") = true /\
  0 < inflight scanning /\
  exists w',
    step (LComplete (Js.VObject "Error: EACCES") [] Js.VUndefined []) scanning
      = Some w' /\
    emitted (effects_since scanning w') = [EvError (Js.VObject "Error: EACCES")] /\
    errorCount w' = 1%N.
Proof.
  split; [reflexivity|]. split; [cbn; lia|].
  destruct (error_completion scanning (Js.VObject "Error: EACCES") []
              Js.VUndefined [] eq_refl ltac:(cbn; lia))
    as (w' & Hs & _ & Hem & _ & Hc & _).
  exists w'. split; [exact Hs|]. split; [exact Hem|].
  apply Hc. vm_compute. reflexivity.
Defined.

Lemma one_event_per_completion_witness :
  0 < inflight scanning /\
  exists w',
    step (LComplete Js.VNull [] (Js.VBool false) []) scanning = Some w' /\
    exists payload,
      emitted (effects_since scanning w') = [EvDrives (Some payload)].
Proof.
  split; [cbn; lia|].
  destruct (one_event_per_completion scanning Js.VNull [] (Js.VBool false) []
              ltac:(cbn; lia))
    as (w' & Hs & Hem & _).
  exists w'. split; [exact Hs|exact Hem].
Defined.

(** ** [run] when stopped; the counters *)

(** C8: when the scanner is not running, [run()] returns at once and the
    world is the one it was called in: no listing invoked, counters, timers
    and log untouched. *)
Theorem run_when_stopped w :
  isRunning w = false ->
  run w = (tt, w) /\
  effects_since w (exec run w) = [] /\
  scanCount (exec run w) = scanCount w /\
  inflight (exec run w) = inflight w /\
  pending (exec run w) = pending w /\
  timer (exec run w) = timer w.
Proof.
  intros Hr.
  assert (Heq : run w = (tt, w)).
  { unfold run. cbv beta iota delta [mbind M_bind get].
    rewrite Hr. reflexivity. }
  split; [exact Heq|].
  unfold exec, effects_since. rewrite Heq. cbn [snd].
  by rewrite drop_all.
Qed.

Lemma run_when_stopped_witness :
  isRunning (new_scanner "linux") = false /\
  run (new_scanner "linux") = (tt, new_scanner "linux").
Proof.
  split; [reflexivity|].
  exact (proj1 (run_when_stopped (new_scanner "linux") eq_refl)).
Defined.

Lemma scans_app es1 es2 : scans (es1 ++ es2) = scans es1 + scans es2.
Proof. unfold scans. by rewrite List.filter_app, length_app. Qed.

Lemma errors_app es1 es2 : errors (es1 ++ es2) = errors es1 + errors es2.
Proof. unfold errors. by rewrite emitted_app, List.filter_app, length_app. Qed.

Lemma errors_le_emitted es : errors es <= length (emitted es).
Proof.
  unfold errors. induction (emitted es) as [|ev evs IH]; [done|].
  cbn [List.filter]. destruct (is_error_event ev); cbn [length]; lia.
Qed.

Lemma errors_timer_effects es :
  forallb timer_effect es = true -> errors es = 0.
Proof. intros H. unfold errors. by rewrite (emitted_timer_effects es H). Qed.

(** What one step counts.  No effects, no counting. *)
Lemma counting_nil w w' :
  log w' = log w -> scanCount w' = scanCount w ->
  errorCount w' = errorCount w -> inflight w' = inflight w ->
  log w' = log w ++ [] /\
  scanCount w' = add_n (scans []) (scanCount w) /\
  errorCount w' = add_n (errors []) (errorCount w) /\
  scans [] + inflight w = inflight w' + length (emitted []).
Proof. intros -> -> -> ->. by rewrite app_nil_r. Qed.

(** One step extends the log; the scan counter receives one [+= 1] for
    each listing invoked and the error counter one for each [error] event;
    a listing invoked is outstanding until it has emitted its event. *)
Lemma step_counting l w w' :
  step l w = Some w' ->
  exists es,
    log w' = log w ++ es /\
    scanCount w' = add_n (scans es) (scanCount w) /\
    errorCount w' = add_n (errors es) (errorCount w) /\
    scans es + inflight w = inflight w' + length (emitted es).
Proof.
  destruct l as [| |id|error raw unsafeMode react| |]; cbn [step].
  - intros [= <-]. rewrite start_exec. eexists [_; _].
    cbn [log scanCount errorCount inflight]. rewrite <- app_assoc.
    by rewrite (scans_timer_effects [_; _]),
      (errors_timer_effects [_; _]), (emitted_timer_effects [_; _]).
  - intros [= <-]. rewrite stop_exec. eexists [_; _].
    cbn [log scanCount errorCount inflight]. rewrite <- app_assoc.
    by rewrite (scans_timer_effects [_; _]),
      (errors_timer_effects [_; _]), (emitted_timer_effects [_; _]).
  - destruct (pending w !! id); [|discriminate]. intros [= <-].
    rewrite run_exec. cbn [with_timers isRunning].
    destruct (isRunning w).
    + exists [EDrivelistList].
      cbn [log scanCount errorCount inflight with_timers].
      split; [done|]. split; [done|]. split; [done|].
      change (scans [EDrivelistList]) with 1.
      change (emitted [EDrivelistList]) with (@nil event). cbn [length]. lia.
    + exists []. by apply counting_nil.
  - destruct (inflight w) as [|n] eqn:Hn; [discriminate|].
    destruct (alloc_drives raw (store w)) as [h drives]. intros [= <-].
    set (w0 := with_store _ _).
    destruct (complete_log error drives unsafeMode react w0) as (es & Hes & Hl).
    pose proof (complete_fields error drives unsafeMode react w0) as Hf.
    cbn zeta in Hf. destruct Hf as (Hsc & Hec & Hin & _).
    change (log w0) with (log w) in Hl.
    change (scanCount w0) with (scanCount w) in Hsc.
    change (errorCount w0) with (errorCount w) in Hec.
    change (inflight w0) with n in Hin.
    eexists. split; [exact Hl|].
    rewrite Hsc, Hec, Hin, !scans_app, !errors_app, !emitted_app, !length_app,
      (scans_timer_effects es), (errors_timer_effects es),
      (emitted_timer_effects es) by done.
    destruct (Js.truthy error);
      [change (scans []) with 0; change (errors []) with 0;
       change (emitted []) with (@nil event)
      |change (scans [ESettingsGet "unsafeMode"]) with 0;
       change (errors [ESettingsGet "unsafeMode"]) with 0;
       change (emitted [ESettingsGet "unsafeMode"]) with (@nil event)];
      change (scans [EDebug "scan"; EEmit ?e]) with 0;
      [change (errors [EDebug "scan"; EEmit (EvError error)]) with 1
      |change (errors [EDebug "scan"; EEmit (EvDrives ?d)]) with 0];
      change (emitted [EDebug "scan"; EEmit ?ev]) with [ev];
      cbn [length add_n Nat.add];
      (split; [done|]); (split; [done|]); lia.
  - intros [= <-]. exists []. by apply counting_nil.
  - intros [= <-]. exists []. by apply counting_nil.
Qed.

Lemma steps_counting tr w w' :
  steps tr w = Some w' ->
  exists es,
    log w' = log w ++ es /\
    scanCount w' = add_n (scans es) (scanCount w) /\
    errorCount w' = add_n (errors es) (errorCount w) /\
    scans es + inflight w = inflight w' + length (emitted es).
Proof.
  revert w; induction tr as [|l tr IH]; intros w; cbn [steps].
  - intros [= <-]. exists []. by apply counting_nil.
  - destruct (step l w) as [w1|] eqn:Hs; [|discriminate]. intros Htr.
    destruct (step_counting _ _ _ Hs) as (es1 & Hl1 & Hs1 & He1 & Hi1).
    destruct (IH _ Htr) as (es2 & Hl2 & Hs2 & He2 & Hi2).
    exists (es1 ++ es2). rewrite Hl2, Hl1, app_assoc. split; [done|].
    rewrite scans_app, errors_app, emitted_app, length_app, !add_n_add.
    rewrite <- Hs1, <- He1. split; [done|]. split; [done|]. lia.
Qed.

(** C9: along any run of the world (calls of [start()] and [stop()],
    timers firing into [run()], listings completing) the two counters never
    decrease, so they are never reset.  The scan counter receives one
    [+= 1] for each listing invoked, which makes it grow by exactly one per
    listing as long as it is below 2^53, where adding one to a double is
    exact; [run()] itself does so exactly when it invokes a listing and
    leaves the error counter alone. *)
Theorem counters_monotone tr w w' :
  steps tr w = Some w' ->
  (scanCount w <= scanCount w')%N /\
  (errorCount w <= errorCount w')%N /\
  scanCount w' = add_n (scans (effects_since w w')) (scanCount w) /\
  ((scanCount w' < Js.exact_limit)%N ->
   scanCount w' = (scanCount w + N.of_nat (scans (effects_since w w')))%N) /\
  scanCount (exec run w)
    = add_n (scans (effects_since w (exec run w))) (scanCount w) /\
  ((scanCount w < Js.exact_limit)%N ->
   scanCount (exec run w)
   = (scanCount w + N.of_nat (scans (effects_since w (exec run w))))%N) /\
  scans (effects_since w (exec run w)) = (if isRunning w then 1 else 0) /\
  errorCount (exec run w) = errorCount w.
Proof.
  intros Htr.
  destruct (steps_counting _ _ _ Htr) as (es & Hl & Hs & He & _).
  rewrite (effects_since_app _ _ _ Hl).
  split; [rewrite Hs; apply add_n_le|].
  split; [rewrite He; apply add_n_le|].
  split; [exact Hs|].
  split; [intros Hlt; rewrite Hs in Hlt |- *; by apply add_n_below|].
  rewrite run_exec. unfold effects_since.
  destruct (isRunning w); cbn [log scanCount errorCount].
  - rewrite drop_app_length. change (scans [EDrivelistList]) with 1.
    cbn [add_n]. split; [done|]. split; [|done].
    intros Hlt. rewrite add1_exact by done. lia.
  - rewrite drop_all. change (scans []) with 0. cbn [add_n].
    split; [done|]. split; [|done]. intros _. lia.
Qed.

(** At 2^53 adding one to a double gives the same double: a listing is
    invoked and the counter stays. *)
Example scan_counter_at_limit :
  scanCount (exec run (with_scanCount Js.exact_limit scanning))
    = Js.exact_limit /\
  scans (effects_since (with_scanCount Js.exact_limit scanning)
           (exec run (with_scanCount Js.exact_limit scanning))) = 1.
Proof. split; vm_compute; reflexivity. Qed.

Lemma counters_monotone_witness :
  steps [LStart; LFire 0] (new_scanner "linux") = Some scanning /\
  (scanCount (new_scanner "linux") <= scanCount scanning)%N /\
  scanCount scanning =
    (scanCount (new_scanner "linux")
     + N.of_nat (scans (effects_since (new_scanner "linux") scanning)))%N.
Proof.
  split; [vm_compute; reflexivity|].
  destruct (counters_monotone [LStart; LFire 0] (new_scanner "linux") scanning
              scanning_reached) as (H1 & _ & _ & H4 & _).
  split; [exact H1|]. apply H4. vm_compute. reflexivity.
Defined.

(** ** After [stop()] *)

Lemma arms_app es1 es2 : arms (es1 ++ es2) = arms es1 + arms es2.
Proof. unfold arms. by rewrite List.filter_app, length_app. Qed.

Lemma stop_effects_quiet es :
  forallb stop_effect es = true ->
  scans es = 0 /\ arms es = 0 /\ emitted es = [].
Proof.
  unfold scans, arms. induction es as [|e es IH]; [done|].
  cbn [forallb]. intros [He Hes]%andb_prop.
  destruct e; try discriminate He; cbn; auto.
Qed.

Lemma listeners_stops react w :
  existsb is_start react = false ->
  isRunning w = false ->
  isRunning (exec (listeners react) w) = false /\
  pending (exec (listeners react) w) ⊆ pending w /\
  exists es, forallb stop_effect es = true /\
             log (exec (listeners react) w) = log w ++ es.
Proof.
  revert w; induction react as [|a rest IH]; intros w Hns Hr.
  - split; [done|]. split; [done|]. exists []. by rewrite app_nil_r.
  - cbn [existsb] in Hns. apply orb_false_elim in Hns as [Ha Hrest].
    destruct a; [discriminate|].
    rewrite listeners_cons. cbn [call].
    destruct (IH (exec stop w) Hrest) as (Hr' & Hp & es & Hes & Hl).
    { by rewrite stop_exec. }
    split; [exact Hr'|]. split.
    + etrans; [exact Hp|]. rewrite stop_exec. cbn [pending].
      destruct (timer w); [apply delete_subseteq|done].
    + exists ([EDebug "stop"; EClearTimeout (timer w)] ++ es).
      split; [exact Hes|]. rewrite Hl, stop_exec. cbn [log].
      by rewrite <- !app_assoc.
Qed.

Lemma run_on_scan_stopped error drives react w :
  existsb is_start react = false ->
  isRunning w = false ->
  let w' := exec (run_on_scan error drives react) w in
  isRunning w' = false /\
  pending w' ⊆ pending w /\
  exists es, forallb stop_effect es = true /\
             log w' = log w ++ [EDebug "scan";
                                EEmit (if Js.truthy error then EvError error
                                       else EvDrives drives)] ++ es.
Proof.
  intros Hns Hr. cbn zeta. rewrite run_on_scan_exec. cbn zeta.
  destruct (emit_throws error w).
  { split; [exact Hr|]. split; [done|]. exists [].
    split; [done|]. cbn [emitted_world log]. by rewrite <- !app_assoc. }
  destruct (listeners_stops react (emitted_world error drives w) Hns Hr)
    as (Hr' & Hp & es & Hes & Hl).
  rewrite Hr'. split; [done|]. split; [exact Hp|].
  exists es. split; [done|]. rewrite Hl. cbn [emitted_world log].
  by rewrite <- !app_assoc.
Qed.

(** One step of a stopped scanner that contains no [start()]. *)
Lemma stopped_step l w w' :
  calls_start l = false ->
  isRunning w = false ->
  step l w = Some w' ->
  isRunning w' = false /\
  scanCount w' = scanCount w /\
  pending w' ⊆ pending w /\
  exists es,
    log w' = log w ++ es /\
    scans es = 0 /\ arms es = 0 /\
    length (emitted es) + inflight w' = inflight w.
Proof.
  intros Hns Hr.
  destruct l as [| |id|error raw unsafeMode react| |]; cbn [step].
  - discriminate.
  - intros [= <-]. rewrite stop_exec. cbn [isRunning scanCount pending log inflight].
    split; [done|]. split; [done|]. split.
    { destruct (timer w); [apply delete_subseteq|done]. }
    eexists [_; _]. by rewrite <- app_assoc.
  - destruct (pending w !! id); [|discriminate]. intros [= <-].
    rewrite run_exec. cbn [with_timers isRunning]. rewrite Hr.
    cbn [isRunning scanCount pending log inflight].
    split; [done|]. split; [done|]. split; [apply delete_subseteq|].
    exists []. by rewrite app_nil_r.
  - cbn [calls_start] in Hns.
    destruct (inflight w) as [|n] eqn:Hn; [discriminate|].
    destruct (alloc_drives raw (store w)) as [h drives]. intros [= <-].
    set (w0 := with_store _ _).
    pose proof (complete_fields error drives unsafeMode react w0) as Hf.
    cbn zeta in Hf. destruct Hf as (Hsc & _ & Hinf & _).
    rewrite complete_exec in *.
    destruct (Js.truthy error) eqn:He; cbn zeta in *.
    + destruct (run_on_scan_stopped error None react w0 Hns Hr)
        as (Hr' & Hp & es & Hes & Hl).
      destruct (stop_effects_quiet es Hes) as (Hs0 & Ha0 & He0).
      split; [exact Hr'|]. split; [exact Hsc|]. split; [exact Hp|].
      eexists. split; [exact Hl|].
      rewrite !scans_app, !arms_app, !emitted_app, Hs0, Ha0, He0, Hinf, He.
      done.
    + match goal with |- context [exec (run_on_scan _ ?d _) ?w1] =>
        destruct (run_on_scan_stopped Js.VNull d react w1 Hns Hr)
          as (Hr' & Hp & es & Hes & Hl)
      end.
      destruct (stop_effects_quiet es Hes) as (Hs0 & Ha0 & He0).
      split; [exact Hr'|]. split; [exact Hsc|]. split; [exact Hp|].
      exists ([ESettingsGet "unsafeMode"]
                ++ [EDebug "scan"; EEmit (EvDrives
                     (Some (if Js.truthy unsafeMode then drives
                            else reject_system
                                   (processDrives (os_platform w0) drives
                                      (store w0)).1 drives)))] ++ es).
      split.
      { rewrite Hl. cbn [with_log log]. by rewrite <- !app_assoc. }
      rewrite !scans_app, !arms_app, !emitted_app, Hs0, Ha0, He0, Hinf.
      done.
  - intros [= <-]. cbn [with_errorListeners isRunning scanCount pending log inflight].
    split; [done|]. split; [done|]. split; [done|].
    exists []. by rewrite app_nil_r.
  - intros [= <-]. cbn [with_errorListeners isRunning scanCount pending log inflight].
    split; [done|]. split; [done|]. split; [done|].
    exists []. by rewrite app_nil_r.
Qed.

Lemma stopped_steps tr w w' :
  forallb (fun l => negb (calls_start l)) tr = true ->
  isRunning w = false ->
  steps tr w = Some w' ->
  isRunning w' = false /\
  scanCount w' = scanCount w /\
  pending w' ⊆ pending w /\
  exists es,
    log w' = log w ++ es /\
    scans es = 0 /\ arms es = 0 /\
    length (emitted es) + inflight w' = inflight w.
Proof.
  revert w; induction tr as [|l tr IH]; intros w Hq Hr; cbn [steps].
  - intros [= <-]. split; [done|]. split; [done|]. split; [done|].
    exists []. by rewrite app_nil_r.
  - cbn [forallb] in Hq. apply andb_prop in Hq as [Hl Hq].
    apply negb_true_iff in Hl.
    destruct (step l w) as [w1|] eqn:Hs; [|discriminate]. intros Htr.
    destruct (stopped_step _ _ _ Hl Hr Hs)
      as (Hr1 & Hc1 & Hp1 & es1 & Hl1 & Hs1 & Ha1 & He1).
    destruct (IH _ Hq Hr1 Htr)
      as (Hr2 & Hc2 & Hp2 & es2 & Hl2 & Hs2 & Ha2 & He2).
    split; [exact Hr2|]. split; [congruence|].
    split; [by etrans|].
    exists (es1 ++ es2). rewrite Hl2, Hl1, app_assoc. split; [done|].
    rewrite scans_app, arms_app, emitted_app, length_app. lia.
Qed.

(** C5: after [stop()], as long as nobody calls [start()], the scanner is
    stopped, no listing is invoked and no timer is armed, whichever timers
    fire; the only events are those of listings that were outstanding when
    [stop()] was called, one per such listing that completes, and none once
    they have all completed. *)
Theorem after_stop w tr w' :
  forallb (fun l => negb (calls_start l)) tr = true ->
  steps tr (exec stop w) = Some w' ->
  let es := effects_since (exec stop w) w' in
  isRunning w' = false /\
  scans es = 0 /\
  scanCount w' = scanCount w /\
  arms es = 0 /\
  pending w' ⊆ pending (exec stop w) /\
  length (emitted es) + inflight w' = inflight w /\
  (inflight w = 0 -> emitted es = []).
Proof.
  intros Hq Htr.
  assert (Hr : isRunning (exec stop w) = false) by by rewrite stop_exec.
  destruct (stopped_steps _ _ _ Hq Hr Htr)
    as (Hr' & Hc & Hp & es & Hl & Hs & Ha & He).
  cbn zeta. rewrite (effects_since_app _ _ _ Hl).
  rewrite stop_exec in Hc, He. cbn [scanCount inflight] in Hc, He.
  split; [exact Hr'|]. split; [exact Hs|]. split; [exact Hc|].
  split; [exact Ha|]. split; [exact Hp|]. split; [exact He|].
  intros H0. apply length_zero_iff_nil. lia.
Qed.

(** The world [scanning] after [stop()]: the outstanding listing completes
    and a subscriber calls [stop()] once more. *)
Lemma after_stop_witness :
  forallb (fun l => negb (calls_start l))
    [LComplete Js.VNull [] (Js.VBool false) [ApiStop]] = true /\
  exists w',
    steps [LComplete Js.VNull [] (Js.VBool false) [ApiStop]]
      (exec stop scanning) = Some w' /\
    isRunning w' = false /\
    scanCount w' = scanCount scanning /\
    length (emitted (effects_since (exec stop scanning) w')) + inflight w'
      = inflight scanning.
Proof.
  split; [reflexivity|].
  eexists. split; [vm_compute; reflexivity|].
  match goal with |- isRunning ?w' = _ /\ _ =>
    destruct (after_stop scanning
                [LComplete Js.VNull [] (Js.VBool false) [ApiStop]] w'
                eq_refl ltac:(vm_compute; reflexivity))
      as (H1 & _ & H3 & _ & _ & H6 & _)
  end.
  split; [exact H1|]. split; [exact H3|exact H6].
Defined.

(** ** Filtering and display names *)

Lemma filter_sublist {A} (p : A -> bool) (l : list A) :
  sublist (List.filter p l) l.
Proof.
  induction l as [|x l IH]; cbn [List.filter]; [constructor|].
  destruct (p x); by constructor.
Qed.

Lemma scan_on_list_success error drives unsafeMode w :
  Js.truthy error = false ->
  (scan_on_list error drives unsafeMode w).1 =
  (Js.VNull, Some (scan_output w drives unsafeMode)).
Proof.
  intros He. unfold scan_on_list, scan_output. rewrite He.
  cbv beta iota delta [mbind M_bind get].
  pose proof (processDrives_out (os_platform w) drives (store w)) as Hout.
  destruct (processDrives (os_platform w) drives (store w)) as [h1 ls].
  cbn [snd] in Hout; subst ls.
  cbv beta iota zeta delta [mbind M_bind modify settings_get tell mret M_ret].
  destruct (Js.truthy unsafeMode); reflexivity.
Qed.

(** C1: on the success path [scan] hands its callback the input array
    without the descriptors flagged [system], in the input order, when the
    unsafe-mode setting is false, and the whole input array when it is
    true. *)
Theorem scan_filters_system w error drives unsafeMode :
  Js.truthy error = false ->
  exists out,
    (scan_on_list error drives unsafeMode w).1 = (Js.VNull, Some out) /\
    (Js.truthy unsafeMode = false ->
     out = List.filter (fun l => negb (matches_system_true (store w) l)) drives /\
     (forall l, l ∈ out -> matches_system_true (store w) l = false) /\
     (forall l, l ∈ drives -> matches_system_true (store w) l = false -> l ∈ out)) /\
    (Js.truthy unsafeMode = true -> out = drives) /\
    sublist out drives.
Proof.
  intros He. exists (scan_output w drives unsafeMode).
  split; [by apply scan_on_list_success|].
  assert (Hf : reject_system (processDrives (os_platform w) drives (store w)).1
                 drives
               = List.filter (fun l => negb (matches_system_true (store w) l))
                   drives).
  { unfold reject_system. apply List.filter_ext. intros l.
    by rewrite processDrives_system. }
  unfold scan_output. split; [|split].
  - intros ->. rewrite Hf. split; [done|]. split.
    + intros l Hl%list_elem_of_In%List.filter_In. destruct Hl as [_ Hl].
      by apply negb_true_iff in Hl.
    + intros l Hl Hs. apply list_elem_of_In, List.filter_In.
      split; [by apply list_elem_of_In|]. by rewrite Hs.
  - by intros ->.
  - destruct (Js.truthy unsafeMode); [done|].
    rewrite Hf. apply filter_sublist.
Qed.

Lemma scan_filters_system_witness :
  Js.truthy Js.VNull = false /\
  (scan_on_list Js.VNull [0; 1] (Js.VBool false)
     (with_store two_drives (new_scanner "linux"))).1 = (Js.VNull, Some [1]) /\
  (scan_on_list Js.VNull [0; 1] (Js.VBool true)
     (with_store two_drives (new_scanner "linux"))).1 = (Js.VNull, Some [0; 1]).
Proof.
  split; [reflexivity|].
  destruct (scan_filters_system (with_store two_drives (new_scanner "linux"))
              Js.VNull [0; 1] (Js.VBool false) eq_refl)
    as (out1 & Hs1 & Hf1 & _).
  destruct (scan_filters_system (with_store two_drives (new_scanner "linux"))
              Js.VNull [0; 1] (Js.VBool true) eq_refl)
    as (out2 & Hs2 & _ & Ht2 & _).
  rewrite Hs1, Hs2.
  destruct (Hf1 eq_refl) as (-> & _). rewrite (Ht2 eq_refl).
  split; [vm_compute|]; reflexivity.
Defined.

(** C2: the name [processDrives] leaves on a descriptor of its input.  Off
    Windows it is the device identifier whatever the mount points; on
    Windows it is the mount-point paths joined by ", " in their order when
    there is at least one, and the device identifier when there is none. *)
Theorem display_name_derivation platform drives h l d :
  l ∈ drives ->
  h !! l = Some d ->
  exists d',
    (processDrives platform drives h).1 !! l = Some d' /\
    (platform <> "win32" -> name d' = Some (device d)) /\
    (platform = "win32" ->
     forall m ms, mountpoints d = Some (m :: ms) ->
       name d' = Some (Js.join (map path (m :: ms)) ", ")) /\
    (platform = "win32" ->
     mountpoints d = Some [ {| path := "D:\" |}; {| path := "E:\" |} ] ->
     name d' = Some "D:\, E:\") /\
    (platform = "win32" ->
     mountpoints d = None \/ mountpoints d = Some [] ->
     name d' = Some (device d)).
Proof.
  intros Hl Hd. exists (process_drive platform d). split.
  { rewrite processDrives_lookup, decide_True, Hd by done. done. }
  rewrite process_drive_eq. cbn [set_name name]. unfold display_name.
  split; [|split; [|split]].
  - intros Hp%String.eqb_neq. by rewrite Hp.
  - intros -> m ms Hm. by rewrite Hm.
  - intros -> Hm. by rewrite Hm.
  - intros -> [Hm|Hm]; by rewrite Hm.
Qed.

Lemma display_name_derivation_witness :
  0 ∈ [0] /\
  ({[0 := windows_disk]} : gmap nat Drive) !! 0 = Some windows_disk /\
  exists d',
    (processDrives "win32" [0] {[0 := windows_disk]}).1 !! 0 = Some d' /\
    name d' = Some "D:\, E:\".
Proof.
  split; [apply list_elem_of_here|]. split; [reflexivity|].
  destruct (display_name_derivation "win32" [0] {[0 := windows_disk]} 0
              windows_disk (list_elem_of_here 0 [])
              (lookup_singleton_eq 0 windows_disk))
    as (d' & Hd' & _ & _ & Hex & _).
  exists d'. split; [exact Hd'|]. exact (Hex eq_refl eq_refl).
Defined.

(** C7, as the code has it: [processDrives] writes the [name] property of
    every descriptor in its input, in place, and nothing else; it returns
    the same references in the same order.  The name written depends on
    the descriptor and on [os.platform()]. *)
Theorem processDrives_writes_names platform drives h :
  (processDrives platform drives h).2 = drives /\
  dom (processDrives platform drives h).1 = dom h /\
  forall l,
    (l ∉ drives -> (processDrives platform drives h).1 !! l = h !! l) /\
    (forall d, l ∈ drives -> h !! l = Some d ->
       exists d',
         (processDrives platform drives h).1 !! l = Some d' /\
         device d' = device d /\
         system d' = system d /\
         mountpoints d' = mountpoints d /\
         name d' = Some (display_name platform d)).
Proof.
  split; [apply processDrives_out|]. split.
  - apply set_eq. intros l. rewrite !elem_of_dom, processDrives_lookup.
    case_decide; [|done]. by rewrite fmap_is_Some.
  - intros l. split.
    + intros Hl. by rewrite processDrives_lookup, decide_False.
    + intros d Hl Hd. exists (process_drive platform d). split.
      * rewrite processDrives_lookup, decide_True, Hd by done. done.
      * by rewrite process_drive_eq.
Qed.

(** C7 as stated fails: the descriptor behind reference 0 is not what it
    was before the call, and the same arguments give another store on
    another platform. *)
Lemma processDrives_mutates_input :
  ({[0 := windows_disk]} : gmap nat Drive) !! 0 = Some windows_disk /\
  (processDrives "linux" [0] {[0 := windows_disk]}).1 !! 0
    = Some (set_name "\\.\PHYSICALDRIVE1" windows_disk) /\
  (processDrives "win32" [0] {[0 := windows_disk]}).1 !! 0
    = Some (set_name "D:\, E:\" windows_disk) /\
  set_name "\\.\PHYSICALDRIVE1" windows_disk <> windows_disk /\
  set_name "D:\, E:\" windows_disk <> set_name "\\.\PHYSICALDRIVE1" windows_disk.
Proof.
  split; [reflexivity|]. split; [vm_compute; reflexivity|].
  split; [vm_compute; reflexivity|]. split; discriminate.
Qed.

(** ** The scenario with /dev/sda and /dev/sdb *)

(** C6: off Windows, with unsafe mode off, a listing that yields the system
    drive /dev/sda and the drive /dev/sdb ends in one [drives] event whose
    payload is the one descriptor of /dev/sdb, named "/dev/sdb". *)
Theorem scenario_sda_sdb w error react :
  os_platform w <> "win32" ->
  Js.truthy error = false ->
  0 < inflight w ->
  exists w' payload,
    step (LComplete error [sda; sdb] (Js.VBool false) react) w = Some w' /\
    emitted (effects_since w w') = [EvDrives (Some payload)] /\
    deref (store w') payload =
      [Some {| device := "/dev/sdb"; system := false;
               mountpoints := None; name := Some "/dev/sdb" |}].
Proof.
  intros Hp He Hin.
  destruct (inflight w) as [|n] eqn:Hn; [lia|].
  set (l1 := fresh (dom (store w))).
  set (h1 := <[l1 := sda]> (store w)).
  set (l2 := fresh (dom h1)).
  set (h2 := <[l2 := sdb]> h1).
  assert (Hne : l2 <> l1).
  { intros Heq. apply (is_fresh (dom h1)). fold l2. rewrite Heq.
    unfold h1. rewrite dom_insert_L. set_solver. }
  assert (Ha : alloc_drives [sda; sdb] (store w) = (h2, [l1; l2])) by done.
  pose proof (step_complete error [sda; sdb] (Js.VBool false) react w n Hn)
    as Hs.
  rewrite Ha in Hs. cbn [fst snd] in Hs.
  set (w0 := with_store h2 (with_inflight n w)) in Hs.
  assert (Hl1 : h2 !! l1 = Some sda).
  { unfold h2, h1. by rewrite lookup_insert_ne, lookup_insert_eq. }
  assert (Hl2 : h2 !! l2 = Some sdb) by apply lookup_insert_eq.
  assert (Hout : scan_output w0 [l1; l2] (Js.VBool false) = [l2]).
  { unfold scan_output, reject_system. cbn [Js.truthy List.filter].
    rewrite !processDrives_system. unfold matches_system_true.
    cbn [store w0 with_store]. by rewrite Hl1, Hl2. }
  eexists _, [l2]. split; [exact Hs|]. split.
  - destruct (complete_log error [l1; l2] (Js.VBool false) react w0)
      as (es & Hes & Hl).
    change (log w0) with (log w) in Hl.
    rewrite (effects_since_app _ _ _ Hl), He, Hout.
    by rewrite !emitted_app, (emitted_timer_effects es).
  - pose proof (complete_fields error [l1; l2] (Js.VBool false) react w0) as Hf.
    cbn zeta in Hf. destruct Hf as (_ & _ & _ & _ & _ & ->).
    rewrite He. cbn [deref map store w0 with_store os_platform with_inflight].
    rewrite processDrives_lookup, decide_True, Hl2
      by (apply elem_of_cons; right; apply list_elem_of_here).
    cbn [fmap option_fmap option_map]. rewrite process_drive_eq.
    unfold display_name. apply String.eqb_neq in Hp. by rewrite Hp.
Qed.

Lemma scenario_sda_sdb_witness :
  os_platform scanning <> "win32" /\
  Js.truthy Js.VNull = false /\
  0 < inflight scanning /\
  exists w' payload,
    step (LComplete Js.VNull [sda; sdb] (Js.VBool false) []) scanning
      = Some w' /\
    emitted (effects_since scanning w') = [EvDrives (Some payload)] /\
    deref (store w') payload =
      [Some {| device := "/dev/sdb"; system := false;
               mountpoints := None; name := Some "/dev/sdb" |}].
Proof.
  split; [discriminate|]. split; [reflexivity|]. split; [cbn; lia|].
  apply (scenario_sda_sdb scanning Js.VNull []);
    [discriminate | reflexivity | cbn; lia].
Defined.

(** ** How many timers are pending *)

(** C4 on the code: [start()] arms a timer without looking at the one it
    may already own.  Two calls leave two timers pending; when both have
    fired, two listings are outstanding at once; and a [start()] that
    follows a [stop()] while a listing is outstanding arms a timer before
    that listing's callback has run, which then arms a second one. *)
Theorem start_twice_two_timers :
  (exists w',
     steps [LStart; LStart] (new_scanner "linux") = Some w' /\
     size (pending w') = 2) /\
  (exists w',
     steps [LStart; LStart; LFire 0; LFire 1] (new_scanner "linux") = Some w' /\
     inflight w' = 2) /\
  (exists w1 w2,
     steps [LStart; LFire 0; LStop; LStart] (new_scanner "linux") = Some w1 /\
     size (pending w1) = 1 /\ inflight w1 = 1 /\
     step (LComplete Js.VNull [] (Js.VBool false) []) w1 = Some w2 /\
     size (pending w2) = 2).
Proof.
  split; [|split].
  - eexists. split; [vm_compute; reflexivity|]. vm_compute. reflexivity.
  - eexists. split; [vm_compute; reflexivity|]. reflexivity.
  - eexists _, _. split; [vm_compute; reflexivity|].
    split; [vm_compute; reflexivity|]. split; [reflexivity|].
    split; [vm_compute; reflexivity|]. vm_compute. reflexivity.
Qed.

Lemma single_timer_empty w :
  size (pending w) = 0 -> inflight w <= 1 -> single_timer w.
Proof.
  intros Hs Hi. split; [lia|].
  intros id [d Hd]. apply map_size_empty_inv in Hs.
  rewrite Hs, lookup_empty in Hd. discriminate.
Qed.

Lemma single_timer_armed w id delay :
  pending w = <[id := delay]> ∅ -> inflight w = 0 ->
  timer w = Some id -> isRunning w = true -> single_timer w.
Proof.
  intros Hp Hi Ht Hr. split.
  - rewrite Hp, Hi, map_size_insert_None, map_size_empty by apply lookup_empty.
    lia.
  - intros i [d Hd]. rewrite Hp in Hd.
    apply lookup_insert_Some in Hd as [[<- _]|[_ Hd]]; [done|].
    rewrite lookup_empty in Hd. discriminate.
Qed.

Lemma listeners_no_start_pending react w :
  existsb is_start react = false ->
  pending (exec (listeners react) w) ⊆ pending w.
Proof.
  revert w; induction react as [|a rest IH]; intros w Hns; [done|].
  cbn [existsb] in Hns. apply orb_false_elim in Hns as [Ha Hrest].
  destruct a; [discriminate|].
  rewrite listeners_cons. cbn [call].
  etrans; [apply IH, Hrest|]. rewrite stop_exec. cbn [pending].
  destruct (timer w); [apply delete_subseteq|done].
Qed.

Lemma subseteq_empty_size (p q : gmap nat Z) : p ⊆ q -> size q = 0 -> size p = 0.
Proof. intros Hs%map_subseteq_size Hq. lia. Qed.

Lemma run_on_scan_single_timer error drives react w :
  existsb is_start react = false ->
  size (pending w) = 0 -> inflight w = 0 ->
  single_timer (exec (run_on_scan error drives react) w).
Proof.
  intros Hns Hp Hi. rewrite run_on_scan_exec. cbn zeta.
  set (w2 := emitted_world error drives w).
  destruct (emit_throws error w).
  { apply single_timer_empty; cbn [w2 emitted_world pending inflight];
      [exact Hp|lia]. }
  pose proof (listeners_no_start_pending react w2 Hns) as Hsub.
  pose proof (listeners_frame react w2) as Hf.
  assert (Hp3 : size (pending (exec (listeners react) w2)) = 0)
    by (eapply subseteq_empty_size; [exact Hsub|exact Hp]).
  assert (Hi3 : inflight (exec (listeners react) w2) = 0)
    by (rewrite (af_inflight _ _ Hf); exact Hi).
  destruct (isRunning (exec (listeners react) w2)) eqn:Hr.
  - eapply single_timer_armed; cbn [rearm pending inflight timer isRunning];
      [|exact Hi3|reflexivity|exact Hr].
    by rewrite (map_size_empty_inv _ Hp3).
  - apply single_timer_empty; [exact Hp3|lia].
Qed.

Lemma single_timer_step l w w' :
  single_timer w -> disciplined l w = true -> step l w = Some w' ->
  single_timer w'.
Proof.
  intros [Hsz Hown] Hd.
  destruct l as [| |id|error raw unsafeMode react| |]; cbn [step disciplined] in *.
  - apply andb_prop in Hd as [Hr%negb_true_iff Hi%Nat.eqb_eq].
    intros [= <-]. rewrite start_exec.
    assert (Hp : pending w = ∅).
    { apply map_empty. intros i. destruct (pending w !! i) eqn:Hpi; [|done].
      destruct (Hown i) as [_ Hr']; [by eexists|congruence]. }
    eapply single_timer_armed; cbn [pending inflight timer isRunning];
      [by rewrite Hp|exact Hi|reflexivity|reflexivity].
  - intros [= <-]. rewrite stop_exec. apply single_timer_empty;
      cbn [pending inflight]; [|lia].
    apply map_size_empty_iff, map_empty. intros i.
    destruct (timer w) as [t|] eqn:Ht.
    + destruct (decide (t = i)) as [->|Hne]; [apply lookup_delete_eq|].
      rewrite lookup_delete_ne by done.
      destruct (pending w !! i) eqn:Hpi; [|done].
      destruct (Hown i) as [Ht' _]; [by eexists|congruence].
    + destruct (pending w !! i) eqn:Hpi; [|done].
      destruct (Hown i) as [Ht' _]; [by eexists|congruence].
  - destruct (pending w !! id) as [d|] eqn:Hpi; [|discriminate].
    intros [= <-].
    destruct (Hown id) as [_ Hr]; [by eexists|].
    pose proof (map_size_delete_Some id (pending w)) as Hdel.
    rewrite run_exec. cbn [with_timers isRunning]. rewrite Hr.
    assert (size (pending w) <> 0).
    { apply map_size_non_empty_iff. intros Hp.
      rewrite Hp, lookup_empty in Hpi. discriminate. }
    apply single_timer_empty; cbn [pending inflight with_timers];
      [rewrite Hdel by (by eexists)|]; lia.
  - apply negb_true_iff in Hd.
    destruct (inflight w) as [|n] eqn:Hn; [discriminate|].
    destruct (alloc_drives raw (store w)) as [h drives]. intros [= <-].
    rewrite complete_exec.
    destruct (Js.truthy error); cbn zeta;
      apply run_on_scan_single_timer; cbn; try done; lia.
  - intros [= <-]. split; [exact Hsz|exact Hown].
  - intros [= <-]. split; [exact Hsz|exact Hown].
Qed.

(** X1: when [start()] is called only on a stopped scanner
    with no listing outstanding, at most one timer is pending at any time
    and none is pending while a listing is outstanding. *)
Theorem single_timer_disciplined tr platform w' :
  disciplined_run tr (new_scanner platform) = true ->
  steps tr (new_scanner platform) = Some w' ->
  size (pending w') <= 1 /\
  (0 < inflight w' -> pending w' = ∅).
Proof.
  assert (Hinv : forall tr w, single_timer w -> disciplined_run tr w = true ->
                   steps tr w = Some w' -> single_timer w').
  { clear tr. induction tr as [|l tr IH]; intros w Hw Hd; cbn [steps].
    - by intros [= <-].
    - cbn [disciplined_run] in Hd. apply andb_prop in Hd as [Hl Hd].
      destruct (step l w) as [w1|] eqn:Hs; [|discriminate].
      apply IH; [|exact Hd]. by eapply single_timer_step. }
  intros Hd Hs.
  destruct (Hinv tr (new_scanner platform)) as [Hsz _]; [|done|done|].
  { apply single_timer_empty; cbn; [apply map_size_empty|lia]. }
  split; [lia|]. intros Hi. apply map_size_empty_inv. lia.
Qed.

(** ** Invariants of the timer bookkeeping *)

Lemma complete_shape error drives unsafeMode react w :
  exists w0 error' drives',
    isRunning w0 = isRunning w /\ timer w0 = timer w /\
    pending w0 = pending w /\ next_timer w0 = next_timer w /\
    inflight w0 = inflight w /\
    errorListeners w0 = errorListeners w /\
    (Js.truthy error' = true -> error' = error) /\
    exec (complete error drives unsafeMode react) w =
    if emit_throws error' w0 then emitted_world error' drives' w0
    else
      let w3 := exec (listeners react) (emitted_world error' drives' w0) in
      if isRunning w3 then rearm w3 else w3.
Proof.
  rewrite complete_exec. destruct (Js.truthy error); cbn zeta.
  - exists w, error, None. by rewrite run_on_scan_exec.
  - rewrite run_on_scan_exec. cbn zeta.
    match goal with |- context [emitted_world ?e ?d ?w0] =>
      exists w0, e, d
    end.
    repeat (split; [reflexivity|]). split; [discriminate|reflexivity].
Qed.

(** A property of the timer fields that [start], [stop], the re-arming and
    the firing of a timer keep is kept by every step. *)
Lemma timer_invariant_step (P : World -> Prop) :
  (forall w w', isRunning w' = isRunning w -> timer w' = timer w ->
     pending w' = pending w -> next_timer w' = next_timer w -> P w -> P w') ->
  (forall w, P w -> P (exec start w)) ->
  (forall w, P w -> P (exec stop w)) ->
  (forall w, isRunning w = true -> P w -> P (rearm w)) ->
  (forall w id, P w -> is_Some (pending w !! id) ->
     P (with_timers (delete id (pending w)) (next_timer w) w)) ->
  forall l w w', P w -> step l w = Some w' -> P w'.
Proof.
  intros Hext Hstart Hstop Hrearm Hfire l w w' HP.
  assert (Hlis : forall react w, P w -> P (exec (listeners react) w)).
  { induction react as [|a rest IH]; intros v Hv; [done|].
    rewrite listeners_cons. apply IH. destruct a; cbn [call]; auto. }
  destruct l as [| |id|error raw unsafeMode react| |]; cbn [step].
  - intros [= <-]. auto.
  - intros [= <-]. auto.
  - destruct (pending w !! id) as [d|] eqn:Hid; [|discriminate].
    intros [= <-]. rewrite run_exec.
    set (w1 := with_timers _ _ _).
    assert (P w1) as H1 by (apply Hfire; [done|by eexists]).
    destruct (isRunning w1) eqn:Hr; [|done].
    by apply (Hext w1).
  - destruct (inflight w) as [|n]; [discriminate|].
    destruct (alloc_drives raw (store w)) as [h drives]. intros [= <-].
    destruct (complete_shape error drives unsafeMode react
                (with_store h (with_inflight n w)))
      as (w0 & e' & d' & H1 & H2 & H3 & H4 & _ & _ & _ & ->).
    cbn [with_store with_inflight isRunning timer pending next_timer]
      in H1, H2, H3, H4.
    cbn zeta.
    assert (P (emitted_world e' d' w0)) as H0.
    { apply (Hext w);
        cbn [emitted_world isRunning timer pending next_timer]; done. }
    destruct (emit_throws e' w0); [exact H0|].
    assert (P (exec (listeners react) (emitted_world e' d' w0))) as H3'
      by by apply Hlis.
    destruct (isRunning (exec (listeners react) _)) eqn:Hr; auto.
  - intros [= <-]. by apply (Hext w).
  - intros [= <-]. by apply (Hext w).
Qed.

Lemma steps_invariant (P : World -> Prop) :
  (forall l w w', P w -> step l w = Some w' -> P w') ->
  forall tr w w', P w -> steps tr w = Some w' -> P w'.
Proof.
  intros Hstep. induction tr as [|l tr IH]; intros w w' HP; cbn [steps].
  - by intros [= <-].
  - destruct (step l w) as [w1|] eqn:Hs; [|discriminate]. eauto.
Qed.

Lemma timers_fresh_step l w w' :
  timers_fresh w -> step l w = Some w' -> timers_fresh w'.
Proof.
  apply (timer_invariant_step timers_fresh); unfold timers_fresh.
  - intros v v' _ _ Hp Hn Hv id. rewrite Hp, Hn. apply Hv.
  - intros v Hv id. rewrite start_exec. cbn [pending next_timer].
    intros [d [[<- _]|[_ Hd]]%lookup_insert_Some]; [lia|].
    assert (id < next_timer v) by (apply Hv; by eexists). lia.
  - intros v Hv id. rewrite stop_exec. cbn [pending next_timer].
    destruct (timer v); [|apply Hv].
    intros [d [_ Hd]%lookup_delete_Some]. apply Hv. by eexists.
  - intros v _ Hv id. cbn [rearm pending next_timer].
    intros [d [[<- _]|[_ Hd]]%lookup_insert_Some]; [lia|].
    assert (id < next_timer v) by (apply Hv; by eexists). lia.
  - intros v t Hv _ id. cbn [with_timers pending next_timer].
    intros [d [_ Hd]%lookup_delete_Some]. apply Hv. by eexists.
Qed.

Lemma stopped_clear_step l w w' :
  stopped_clear w -> step l w = Some w' -> stopped_clear w'.
Proof.
  apply (timer_invariant_step stopped_clear); unfold stopped_clear.
  - intros v v' Hr Ht Hp _ Hv. rewrite Hr, Ht, Hp. apply Hv.
  - intros v _. rewrite start_exec. discriminate.
  - intros v _ _ id. rewrite stop_exec. cbn [timer pending].
    intros ->. apply lookup_delete_eq.
  - intros v Hr _. cbn [rearm isRunning]. congruence.
  - intros v t Hv _ Hr id Ht. cbn [with_timers pending isRunning timer] in *.
    destruct (decide (t = id)) as [->|Hne]; [apply lookup_delete_eq|].
    rewrite lookup_delete_ne by done. by apply Hv.
Qed.

Lemma reachable_timers_fresh w : reachable w -> timers_fresh w.
Proof.
  intros (platform & tr & Htr).
  apply (steps_invariant timers_fresh timers_fresh_step tr _ _) in Htr; [done|].
  intros id [d Hd]. cbn in Hd. by rewrite lookup_empty in Hd.
Qed.

Lemma reachable_stopped_clear w : reachable w -> stopped_clear w.
Proof.
  intros (platform & tr & Htr).
  apply (steps_invariant stopped_clear stopped_clear_step tr _ _) in Htr; [done|].
  intros _ id Hd. cbn in Hd. discriminate.
Qed.

Lemma timers_fresh_next w : timers_fresh w -> pending w !! next_timer w = None.
Proof.
  intros Hf. destruct (pending w !! next_timer w) eqn:Hp; [|done].
  assert (next_timer w < next_timer w) by (apply Hf; by eexists). lia.
Qed.

(** ** [start()] and [stop()] on worlds reached from construction *)

(** X2: [start()] never cancels or replaces a timer: the handle it gets is
    not pending, every timer pending before is pending after, and there is
    exactly one more. *)
Theorem start_adds_one_timer w :
  reachable w ->
  pending w !! next_timer w = None /\
  pending (exec start w)
    = <[next_timer w := DRIVE_SCANNER_FIRST_SCAN_DELAY_MS]> (pending w) /\
  pending w ⊆ pending (exec start w) /\
  size (pending (exec start w)) = S (size (pending w)).
Proof.
  intros Hr%reachable_timers_fresh%timers_fresh_next.
  rewrite start_exec. cbn [pending].
  split; [exact Hr|]. split; [reflexivity|].
  split; [by apply insert_subseteq|by apply map_size_insert_None].
Qed.

Lemma start_adds_one_timer_witness :
  reachable scanning /\
  size (pending (exec start scanning)) = S (size (pending scanning)).
Proof.
  assert (Hr : reachable scanning)
    by (exists "linux", [LStart; LFire 0]; vm_compute; reflexivity).
  split; [exact Hr|].
  exact (proj2 (proj2 (proj2 (start_adds_one_timer scanning Hr)))).
Defined.

(** X3: a [stop()] right after a [start()] cancels the timer that
    [start()] armed and no other: the pending timers are those from before
    the [start()]. *)
Theorem start_then_stop_restores_timers w :
  reachable w ->
  pending (exec stop (exec start w)) = pending w /\
  isRunning (exec stop (exec start w)) = false /\
  scanCount (exec stop (exec start w)) = scanCount w.
Proof.
  intros Hr%reachable_timers_fresh%timers_fresh_next.
  rewrite stop_exec, start_exec. cbn [pending timer isRunning scanCount].
  split; [|done]. by rewrite delete_insert_eq, delete_id.
Qed.

Lemma start_then_stop_restores_timers_witness :
  reachable (new_scanner "linux") /\
  pending (exec stop (exec start (new_scanner "linux")))
    = pending (new_scanner "linux").
Proof.
  assert (Hr : reachable (new_scanner "linux"))
    by (exists "linux", []; reflexivity).
  split; [exact Hr|].
  exact (proj1 (start_then_stop_restores_timers (new_scanner "linux") Hr)).
Defined.

(** X4: [stop()] on a scanner that is not running changes nothing but the
    log: flags, counters, timers and descriptors stay as they are. *)
Theorem stop_when_stopped w :
  reachable w ->
  isRunning w = false ->
  exec stop w
    = with_log (log w ++ [EDebug "stop"; EClearTimeout (timer w)]) w.
Proof.
  intros Hc%reachable_stopped_clear Hr. rewrite stop_exec.
  specialize (Hc Hr).
  destruct w as [r t sc ec el pl pe nt inf st lg]. cbn in *. subst r.
  unfold with_log. cbn. rewrite <- app_assoc. cbn [app].
  f_equal. destruct t as [id|]; [|done]. by apply delete_id, Hc.
Qed.

Lemma stop_when_stopped_witness :
  reachable (exec stop scanning) /\
  isRunning (exec stop scanning) = false /\
  pending (exec stop (exec stop scanning)) = pending (exec stop scanning).
Proof.
  assert (Hr : reachable (exec stop scanning))
    by (exists "linux", [LStart; LFire 0; LStop]; vm_compute; reflexivity).
  split; [exact Hr|]. split; [reflexivity|].
  by rewrite (stop_when_stopped (exec stop scanning) Hr eq_refl).
Defined.

(** ** One turn of the polling loop *)



(** ** What the counters count *)

(** X6: in every world reached from construction, each scan counted has
    emitted exactly one event or is still outstanding, the error counter is
    the number of [error] events emitted, and so never exceeds the scan
    counter.  The counters are doubles and stay at 2^53 once there; below,
    they are these numbers exactly. *)
Theorem counters_account w :
  reachable w ->
  scanCount w
    = N.min Js.exact_limit
        (N.of_nat (length (emitted (log w)) + inflight w)) /\
  errorCount w = N.min Js.exact_limit (N.of_nat (errors (log w))) /\
  (errorCount w <= scanCount w)%N /\
  ((scanCount w < Js.exact_limit)%N ->
   scanCount w = N.of_nat (length (emitted (log w)) + inflight w) /\
   errorCount w = N.of_nat (errors (log w))).
Proof.
  intros (platform & tr & Htr).
  destruct (steps_counting _ _ _ Htr) as (es & Hl & Hs & He & Hi).
  cbn [new_scanner log scanCount errorCount inflight app] in Hl, Hs, He, Hi.
  subst es. rewrite add_n_from_0 in Hs, He.
  pose proof (errors_le_emitted (log w)).
  replace (length (emitted (log w)) + inflight w) with (scans (log w)) by lia.
  split; [exact Hs|]. split; [exact He|]. split; [lia|]. lia.
Qed.

Lemma counters_account_witness :
  reachable scanning /\
  scanCount scanning
    = N.of_nat (length (emitted (log scanning)) + inflight scanning).
Proof.
  assert (Hr : reachable scanning)
    by (exists "linux", [LStart; LFire 0]; vm_compute; reflexivity).
  split; [exact Hr|].
  destruct (counters_account scanning Hr) as (_ & _ & _ & Hb).
  apply Hb. vm_compute. reflexivity.
Defined.

(** ** What a [drives] event delivers *)

Lemma alloc_drives_spec raw h :
  NoDup (alloc_drives raw h).2 /\
  (forall l, l ∈ (alloc_drives raw h).2 -> h !! l = None) /\
  (forall l, l ∉ (alloc_drives raw h).2 -> (alloc_drives raw h).1 !! l = h !! l) /\
  deref (alloc_drives raw h).1 (alloc_drives raw h).2 = map Some raw.
Proof.
  revert h; induction raw as [|d rest IH]; intros h; cbn [alloc_drives].
  - cbn. split; [constructor|]. split; [|done].
    intros l Hl. by apply not_elem_of_nil in Hl.
  - set (l := fresh (dom h)).
    specialize (IH (<[l := d]> h)).
    destruct (alloc_drives rest (<[l := d]> h)) as [h' ls].
    cbn [fst snd] in *. destruct IH as (Hnd & Hnew & Hold & Hde).
    assert (Hl : l ∉ ls).
    { intros Hin. apply Hnew in Hin. by rewrite lookup_insert_eq in Hin. }
    split; [by constructor|]. split; [|split].
    + intros l' [->|Hin]%elem_of_cons.
      * apply not_elem_of_dom, is_fresh.
      * apply Hnew in Hin. by apply lookup_insert_None in Hin as [? _].
    + intros l' [Hne Hin]%not_elem_of_cons.
      by rewrite Hold, lookup_insert_ne.
    + cbn [deref map]. f_equal; [|exact Hde].
      by rewrite Hold, lookup_insert_eq.
Qed.

Lemma deref_processDrives platform ls h :
  deref (processDrives platform ls h).1 ls
  = map (fmap (process_drive platform)) (deref h ls).
Proof.
  unfold deref. rewrite map_map. apply map_ext_in. intros l Hl.
  by rewrite processDrives_lookup, decide_True by by apply list_elem_of_In.
Qed.

Lemma reject_system_deref h ls ds :
  deref h ls = map Some ds ->
  deref h (reject_system h ls)
  = map Some (List.filter (fun d => negb (system d)) ds).
Proof.
  revert ds; induction ls as [|l ls IH]; intros [|d ds]; try discriminate.
  - done.
  - cbn [deref map]. intros [= Hl Hls].
    cbn [reject_system List.filter]. unfold matches_system_true at 1.
    rewrite Hl. specialize (IH ds Hls).
    destruct (system d); cbn [negb]; [exact IH|].
    cbn [deref map]. rewrite Hl. f_equal. exact IH.
Qed.

Lemma filter_named platform raw :
  List.filter (fun d => negb (system d)) (map (named platform) raw)
  = map (named platform) (List.filter (fun d => negb (system d)) raw).
Proof.
  induction raw as [|d raw IH]; [done|].
  cbn [map List.filter]. change (system (named platform d)) with (system d).
  destruct (system d); cbn [negb map]; by rewrite IH.
Qed.

(** X7: when a listing succeeds, the [drives] event delivers the
    descriptors [drivelist] produced, each with its display name set and
    nothing else changed, in the order of the listing, without those flagged
    [system] unless the unsafe-mode setting is truthy. *)
Theorem drives_payload w error raw unsafeMode react :
  Js.truthy error = false ->
  0 < inflight w ->
  exists w' payload,
    step (LComplete error raw unsafeMode react) w = Some w' /\
    emitted (effects_since w w') = [EvDrives (Some payload)] /\
    deref (store w') payload
    = map Some (delivered (os_platform w) unsafeMode raw).
Proof.
  intros He Hin.
  destruct (inflight w) as [|n] eqn:Hn; [lia|].
  pose proof (step_complete error raw unsafeMode react w n Hn) as Hs.
  destruct (alloc_drives_spec raw (store w)) as (_ & _ & _ & Hde).
  destruct (alloc_drives raw (store w)) as [h ls]. cbn [fst snd] in *.
  set (w0 := with_store h (with_inflight n w)) in *.
  set (h1 := (processDrives (os_platform w) ls h).1).
  assert (Hde1 : deref h1 ls = map Some (map (named (os_platform w)) raw)).
  { unfold h1. rewrite deref_processDrives, Hde, !map_map.
    apply map_ext. intros d. cbn. by rewrite process_drive_eq. }
  eexists _, (scan_output w0 ls unsafeMode).
  split; [exact Hs|]. split.
  - destruct (complete_log error ls unsafeMode react w0) as (es & Hes & Hl).
    change (log w0) with (log w) in Hl.
    rewrite (effects_since_app _ _ _ Hl), He.
    by rewrite !emitted_app, (emitted_timer_effects es).
  - pose proof (complete_fields error ls unsafeMode react w0) as Hf.
    cbn zeta in Hf. destruct Hf as (_ & _ & _ & _ & _ & ->).
    rewrite He. unfold scan_output, delivered.
    cbn [store os_platform w0 with_store with_inflight]. fold h1.
    destruct (Js.truthy unsafeMode); [exact Hde1|].
    rewrite (reject_system_deref h1 ls _ Hde1). by rewrite filter_named.
Qed.

Lemma drives_payload_witness :
  Js.truthy Js.VNull = false /\
  0 < inflight scanning /\
  exists w' payload,
    step (LComplete Js.VNull [sda; windows_disk] (Js.VBool true) []) scanning
      = Some w' /\
    emitted (effects_since scanning w') = [EvDrives (Some payload)] /\
    deref (store w') payload
    = [Some (set_name "/dev/sda" sda);
       Some (set_name "\\.\PHYSICALDRIVE1" windows_disk)].
Proof.
  split; [reflexivity|]. split; [cbn; lia|].
  apply (drives_payload scanning Js.VNull [sda; windows_disk] (Js.VBool true) []);
    [reflexivity | cbn; lia].
Defined.

(** ** Descriptors of earlier listings *)

Lemma step_store_stable l w w' :
  step l w = Some w' ->
  forall r d, store w !! r = Some d -> store w' !! r = Some d.
Proof.
  destruct l as [| |id|error raw unsafeMode react| |]; cbn [step].
  - intros [= <-]. by rewrite start_exec.
  - intros [= <-]. by rewrite stop_exec.
  - destruct (pending w !! id); [|discriminate]. intros [= <-].
    rewrite run_exec. cbn [with_timers isRunning store].
    by destruct (isRunning w).
  - destruct (inflight w) as [|n]; [discriminate|].
    destruct (alloc_drives_spec raw (store w)) as (_ & Hnew & Hold & _).
    destruct (alloc_drives raw (store w)) as [h ls]. cbn [fst snd] in *.
    intros [= <-] r d Hr.
    assert (Hrl : r ∉ ls) by (intros Hin%Hnew; congruence).
    pose proof (complete_fields error ls unsafeMode react
                  (with_store h (with_inflight n w))) as Hf.
    cbn zeta in Hf. destruct Hf as (_ & _ & _ & _ & _ & ->).
    cbn [store os_platform with_store with_inflight].
    destruct (Js.truthy error).
    + by rewrite Hold.
    + by rewrite processDrives_lookup, decide_False, Hold.
  - by intros [= <-].
  - by intros [= <-].
Qed.

(** X8: given that every listing consists of new objects, a descriptor,
    once in the store, is never written again: whatever steps follow, a
    reference a subscriber holds shows the same device, flag and name. *)
Theorem descriptors_stable tr w w' r d :
  steps tr w = Some w' ->
  store w !! r = Some d ->
  store w' !! r = Some d.
Proof.
  revert w; induction tr as [|l tr IH]; intros w; cbn [steps].
  - by intros [= <-].
  - destruct (step l w) as [w1|] eqn:Hs; [|discriminate].
    intros Htr Hr. apply (IH w1 Htr). by eapply step_store_stable.
Qed.

Lemma descriptors_stable_witness :
  store (with_store two_drives scanning) !! 1 = Some sdb /\
  exists w',
    steps [LComplete Js.VNull [sdb; windows_disk] Js.VNull []; LStop]
      (with_store two_drives scanning) = Some w' /\
    store w' !! 1 = Some sdb.
Proof.
  split; [reflexivity|]. eexists. split; [vm_compute; reflexivity|].
  apply (descriptors_stable
           [LComplete Js.VNull [sdb; windows_disk] Js.VNull []; LStop]
           (with_store two_drives scanning));
    vm_compute; reflexivity.
Defined.

(** ** Post-processing twice *)

(** X9: post-processing is idempotent: running [processDrives] again on
    its own result writes the same names and returns the same array. *)
Theorem processDrives_idempotent platform drives h :
  processDrives platform drives (processDrives platform drives h).1
  = processDrives platform drives h.
Proof.
  rewrite (surjective_pairing (processDrives platform drives h)) at 2.
  rewrite (surjective_pairing
             (processDrives platform drives (processDrives platform drives h).1)).
  rewrite !processDrives_out. f_equal.
  apply map_eq. intros l. rewrite !processDrives_lookup.
  case_decide; [|done].
  destruct (h !! l) as [d|]; cbn; [|done]. by rewrite process_drive_idem.
Qed.

(** ** Polling chains *)





(** X11: every pending timer was armed either with the first-scan delay or
    with the steady-state delay. *)
Theorem pending_delays w id delay :
  reachable w ->
  pending w !! id = Some delay ->
  delay = DRIVE_SCANNER_FIRST_SCAN_DELAY_MS \/ delay = DRIVE_SCANNER_DELAY_MS.
Proof.
  intros (platform & tr & Htr). revert id delay.
  pose (P := fun v : World =>
          forall id delay, pending v !! id = Some delay ->
            delay = DRIVE_SCANNER_FIRST_SCAN_DELAY_MS \/
            delay = DRIVE_SCANNER_DELAY_MS).
  change (P w).
  eapply (steps_invariant P);
    [apply (timer_invariant_step P)| |exact Htr]; unfold P.
  - intros v v' _ _ Hp _ Hv id delay. rewrite Hp. apply Hv.
  - intros v Hv id delay. rewrite start_exec. cbn [pending].
    intros [[_ <-]|[_ Hd]]%lookup_insert_Some; [by left|by eapply Hv].
  - intros v Hv id delay. rewrite stop_exec. cbn [pending].
    destruct (timer v); [|apply Hv].
    intros [_ Hd]%lookup_delete_Some. by eapply Hv.
  - intros v _ Hv id delay. cbn [rearm pending].
    intros [[_ <-]|[_ Hd]]%lookup_insert_Some; [by right|by eapply Hv].
  - intros v t Hv _ id delay. cbn [with_timers pending].
    intros [_ Hd]%lookup_delete_Some. by eapply Hv.
  - intros id delay Hd. cbn in Hd. by rewrite lookup_empty in Hd.
Qed.

Lemma pending_delays_witness :
  reachable (exec start (new_scanner "linux")) /\
  pending (exec start (new_scanner "linux")) !! 0
    = Some DRIVE_SCANNER_FIRST_SCAN_DELAY_MS /\
  (DRIVE_SCANNER_FIRST_SCAN_DELAY_MS = DRIVE_SCANNER_FIRST_SCAN_DELAY_MS \/
   DRIVE_SCANNER_FIRST_SCAN_DELAY_MS = DRIVE_SCANNER_DELAY_MS).
Proof.
  assert (Hr : reachable (exec start (new_scanner "linux")))
    by (exists "linux", [LStart]; reflexivity).
  assert (Hp : pending (exec start (new_scanner "linux")) !! 0
               = Some DRIVE_SCANNER_FIRST_SCAN_DELAY_MS)
    by (vm_compute; reflexivity).
  split; [exact Hr|]. split; [exact Hp|].
  exact (pending_delays _ 0 _ Hr Hp).
Defined.

Lemma single_timer_disciplined_witness :
  disciplined_run
    [LStart; LFire 0; LStop; LComplete Js.VNull [] Js.VNull []; LStart]
    (new_scanner "linux") = true /\
  exists w',
    steps [LStart; LFire 0; LStop; LComplete Js.VNull [] Js.VNull []; LStart]
      (new_scanner "linux") = Some w' /\
    size (pending w') <= 1.
Proof.
  split; [vm_compute; reflexivity|].
  eexists. split; [vm_compute; reflexivity|].
  refine (proj1 (single_timer_disciplined
                   [LStart; LFire 0; LStop;
                    LComplete Js.VNull [] Js.VNull []; LStart]
                   "linux" _ _ _));
    vm_compute; reflexivity.
Defined.



